(** * BEAMS: condition evaluation, action work routines, tree assembly and
      the Worker handle

    A shallow embedding of [beams/tree_config.py] and
    [beams/sequencer/helpers/Worker.py].

    Python code that reads and writes process variables, sleeps, logs and
    may raise is embedded in a state-and-exception monad: a computation takes
    the current state and returns either a value or the exception it raised,
    together with the state reached.  Side effects made before an exception
    is raised are kept, as in Python. *)

From Stdlib Require Import ZArith Bool List Lia.
From stdpp Require Import base gmap strings list.

Local Open Scope Z_scope.
Set Warnings "-register-all".

(** ** Python values, exceptions, and the state-and-exception monad *)

Module Py.

(** The exception classes the embedded code can meet.  [KeyboardInterrupt] and
    [SystemExit] derive from [BaseException] only; every other class derives
    from [Exception].  [OtherError] stands for any further [Exception]
    subclass an external call may raise (its text is the message). *)
Inductive exn : Type :=
| AttributeError
| TypeError
| ValueError
| NotImplementedError
| AssertionError
| OtherError (msg : string)
| KeyboardInterrupt
| SystemExit.

(** [isinstance(e, Exception)]: the test made by [except Exception]. *)
Definition isinstance_Exception (e : exn) : bool :=
  match e with
  | KeyboardInterrupt | SystemExit => false
  | _ => true
  end.

Inductive result (A : Type) : Type :=
| Ok (a : A)
| Raise (e : exn).
Arguments Ok {A} a.
Arguments Raise {A} e.

(** A computation over a state of type [S]. *)
Definition M (S A : Type) : Type := S -> result A * S.

Definition ret {S A} (a : A) : M S A := fun s => (Ok a, s).

Definition raise {S A} (e : exn) : M S A := fun s => (Raise e, s).

Definition bind {S A B} (c : M S A) (k : A -> M S B) : M S B :=
  fun s =>
    match c s with
    | (Ok a, s') => k a s'
    | (Raise e, s') => (Raise e, s')
    end.

(** [lift r]: a pure step that may raise (an attribute lookup, an operator
    application). *)
Definition lift {S A} (r : result A) : M S A := fun s => (r, s).

(** [try: body  except Exception as ex: handler(ex)].  An exception that is
    not an instance of [Exception] passes through the handler. *)
Definition try_except_Exception {S A} (body : M S A) (handler : exn -> M S A)
  : M S A :=
  fun s =>
    match body s with
    | (Ok a, s') => (Ok a, s')
    | (Raise e, s') =>
        if isinstance_Exception e then handler e s' else (Raise e, s')
    end.

Definition gets {S A} (f : S -> A) : M S A := fun s => (Ok (f s), s).

Definition modify {S} (f : S -> S) : M S unit := fun s => (Ok tt, f s).

(** Values of type [Any] that travel through process variables and
    configuration fields: numbers (modelled as integers) and strings. *)
Inductive pyval : Type :=
| VInt (z : Z)
| VStr (s : string).

#[global] Instance pyval_eq_dec : EqDecision pyval.
Proof. solve_decision. Defined.

#[global] Instance exn_eq_dec : EqDecision exn.
Proof. solve_decision. Defined.

(** The functions of Python's [operator] module that [ConditionOperator]
    names.  [==] and [!=] accept any two values; the order comparisons raise
    [TypeError] between a number and a string. *)
Definition operator_eq (a b : pyval) : result bool :=
  match a, b with
  | VInt x, VInt y => Ok (x =? y)
  | VStr x, VStr y => Ok (String.eqb x y)
  | _, _ => Ok false
  end.

Definition operator_ne (a b : pyval) : result bool :=
  match a, b with
  | VInt x, VInt y => Ok (negb (x =? y))
  | VStr x, VStr y => Ok (negb (String.eqb x y))
  | _, _ => Ok true
  end.

Definition operator_lt (a b : pyval) : result bool :=
  match a, b with
  | VInt x, VInt y => Ok (x <? y)
  | VStr x, VStr y => Ok (String.ltb x y)
  | _, _ => Raise TypeError
  end.

Definition operator_gt (a b : pyval) : result bool :=
  match a, b with
  | VInt x, VInt y => Ok (y <? x)
  | VStr x, VStr y => Ok (String.ltb y x)
  | _, _ => Raise TypeError
  end.

Definition operator_le (a b : pyval) : result bool :=
  match a, b with
  | VInt x, VInt y => Ok (x <=? y)
  | VStr x, VStr y => Ok (String.leb x y)
  | _, _ => Raise TypeError
  end.

Definition operator_ge (a b : pyval) : result bool :=
  match a, b with
  | VInt x, VInt y => Ok (y <=? x)
  | VStr x, VStr y => Ok (String.leb y x)
  | _, _ => Raise TypeError
  end.

(** [getattr(operator, name)]. *)
Definition operator_getattr (name : string)
  : result (pyval -> pyval -> result bool) :=
  if String.eqb name "eq" then Ok operator_eq
  else if String.eqb name "ne" then Ok operator_ne
  else if String.eqb name "lt" then Ok operator_lt
  else if String.eqb name "gt" then Ok operator_gt
  else if String.eqb name "le" then Ok operator_le
  else if String.eqb name "ge" then Ok operator_ge
  else Raise AttributeError.

(** [value + increment], where [value] is what [caget] returned: [None]
    (here [None : option pyval]) supports no addition. *)
Definition add (value : option pyval) (increment : pyval) : result pyval :=
  match value, increment with
  | Some (VInt x), VInt y => Ok (VInt (x + y))
  | Some (VStr x), VStr y => Ok (VStr (x +:+ y))
  | _, _ => Raise TypeError
  end.

End Py.

Export Py.

Declare Scope py_scope.
Delimit Scope py_scope with py.
Notation "'let*' x ':=' c 'in' k" := (bind c (fun x => k))
  (at level 10, x name, c at level 100, k at level 200) : py_scope.
Notation "c ;;; k" := (bind c (fun _ => k))
  (at level 100, k at level 200, right associativity,
   format "'[v' c  ;;; '/' k ']'") : py_scope.
Local Open Scope py_scope.

(** ** [beams/tree_config.py] *)

Module TreeConfig.

(** *** The outside world: process variables, the clock and the log *)

(** [logger] is the module's logger, [logging] the root logger (the
    increment routine logs its debug line through the root logger). *)
Inductive logger_name : Type := logger | logging.

Inductive level : Type := DEBUG | WARNING | ERROR.

(** The formatted messages of the module, with the interpolated fields. *)
Inductive message : Type :=
| ValueIs (name : string) (value : option pyval)
| WfValueIs (name : string) (value : option pyval)
| WorkFailed (name : string) (ex : exn).

Inductive event : Type :=
| Ecaget (pv : string)
| Ecaput (pv : string) (value : pyval)
| Esleep (sec : Z)
| Elog (lg : logger_name) (lvl : level) (msg : message).

(** [pvs] holds the process variables that are connected; [faults] says, for
    each coming call into the control network or the clock, whether that call
    raises (and what); [trace] records the calls made, in order. *)
Record World : Type := mkWorld {
  pvs : gmap string pyval;
  faults : list (option exn);
  trace : list event
}.

Definition emit (e : event) : M World unit :=
  modify (fun w => mkWorld (pvs w) (faults w) (trace w ++ [e])).

(** Entering an external call: the next entry of [faults] is consumed. *)
Definition external_call : M World unit :=
  fun w =>
    match faults w with
    | Some e :: rest => (Raise e, mkWorld (pvs w) rest (trace w))
    | None :: rest => (Ok tt, mkWorld (pvs w) rest (trace w))
    | [] => (Ok tt, w)
    end.

(** [epics.caget]: the value of the variable, or [None] when it cannot be
    read. *)
Definition caget (pv : string) : M World (option pyval) :=
  external_call ;;;
  emit (Ecaget pv) ;;;
  gets (fun w => pvs w !! pv).

(** [epics.caput]: writes a connected variable; a variable that is not
    connected is left as it is.  Here the value written is in [pvs] at once;
    the source calls [caput] without [wait], so on a real network a later
    [caget] may still return the earlier value.  The statements below are
    about the calls made and their order, and none relies on a read
    returning what an earlier call wrote. *)
Definition caput (pv : string) (value : pyval) : M World unit :=
  external_call ;;;
  emit (Ecaput pv value) ;;;
  modify (fun w =>
            match pvs w !! pv with
            | Some _ => mkWorld (<[pv := value]> (pvs w)) (faults w) (trace w)
            | None => w
            end).

(** [time.sleep]: a negative length is refused with [ValueError]. *)
Definition sleep (sec : Z) : M World unit :=
  if sec <? 0 then raise ValueError
  else (external_call ;;; emit (Esleep sec)).

Definition log (lg : logger_name) (lvl : level) (msg : message)
  : M World unit :=
  emit (Elog lg lvl msg).

(** Reading the world: the exception the next external call raises, if any;
    the world once that call has been entered; the world with one more
    recorded event. *)
Definition next_fault (w : World) : option exn :=
  match faults w with
  | Some e :: _ => Some e
  | _ => None
  end.

Definition entered (w : World) : World :=
  mkWorld (pvs w) (tail (faults w)) (trace w).

Definition recorded (e : event) (w : World) : World :=
  mkWorld (pvs w) (faults w) (trace w ++ [e]).

(** *** Condition items *)

Inductive ConditionOperator : Type :=
| equal | not_equal | less | greater | less_equal | greater_equal.

(** The [.value] of each enumeration member. *)
Definition ConditionOperator_value (o : ConditionOperator) : string :=
  match o with
  | equal => "eq"
  | not_equal => "ne"
  | less => "lt"
  | greater => "gt"
  | less_equal => "le"
  | greater_equal => "ge"
  end.

(** [AnyConditionItem]: the union of the four condition dataclasses; each
    constructor lists the dataclass fields, [name] and [description] first
    (they come from [BaseItem]). *)
Inductive AnyConditionItem : Type :=
| ConditionItem (name description pv : string) (value : pyval)
    (operator : ConditionOperator)
| SequenceConditionItem (name description : string) (memory : bool)
    (children : list AnyConditionItem)
| RangeConditionItem (name description : string) (memory : bool)
    (pv : string) (low_value high_value : pyval)
| UseCheckConditionItem (name description copy_from : string).

(** The dataclass defaults used by the code. *)
Definition ConditionItem_default : AnyConditionItem :=
  ConditionItem "" "" "" (VInt 1) equal.

Definition UseCheckConditionItem_default : AnyConditionItem :=
  UseCheckConditionItem "" "" "previous check".

Definition item_name (item : AnyConditionItem) : string :=
  match item with
  | ConditionItem name _ _ _ _ => name
  | SequenceConditionItem name _ _ _ => name
  | RangeConditionItem name _ _ _ _ _ => name
  | UseCheckConditionItem name _ _ => name
  end.

(** [item.pv]: only [ConditionItem] and [RangeConditionItem] have the
    attribute. *)
Definition item_pv (item : AnyConditionItem) : result string :=
  match item with
  | ConditionItem _ _ pv _ _ => Ok pv
  | RangeConditionItem _ _ _ pv _ _ => Ok pv
  | SequenceConditionItem _ _ _ _ => Raise AttributeError
  | UseCheckConditionItem _ _ _ => Raise AttributeError
  end.

Definition isinstance_UseCheckConditionItem (item : AnyConditionItem) : bool :=
  match item with
  | UseCheckConditionItem _ _ _ => true
  | _ => false
  end.

(** The closure [cond_func] of [ConditionItem.get_condition_function]. *)
Definition ConditionItem_cond_func (pv : string) (value : pyval)
    (op : pyval -> pyval -> result bool) : M World bool :=
  let* val := caget pv in
  match val with
  | None => ret false
  | Some v => lift (op v value)
  end.

Definition ConditionItem_get_condition_function (pv : string) (value : pyval)
    (operator : ConditionOperator) : result (M World bool) :=
  match operator_getattr (ConditionOperator_value operator) with
  | Ok op => Ok (ConditionItem_cond_func pv value op)
  | Raise e => Raise e
  end.

(** The loop of the closure [cond_func] of
    [SequenceConditionItem.get_condition_function]; [ok] is the loop
    variable.  [ok and cf()] calls [cf] only when [ok] is true. *)
Fixpoint cond_func_loop (ok : bool) (child_funcs : list (M World bool))
  : M World bool :=
  match child_funcs with
  | [] => ret ok
  | cf :: rest =>
      let* ok' := (if ok then cf else ret ok) in
      if negb ok' then ret ok' else cond_func_loop ok' rest
  end.

Definition SequenceConditionItem_cond_func (child_funcs : list (M World bool))
  : M World bool :=
  cond_func_loop true child_funcs.

(** A list comprehension over calls that may raise: the first exception, in
    list order, ends it. *)
Fixpoint comprehension {A} (calls : list (result A)) : result (list A) :=
  match calls with
  | [] => Ok []
  | Ok a :: rest =>
      match comprehension rest with
      | Ok l => Ok (a :: l)
      | Raise e => Raise e
      end
  | Raise e :: _ => Raise e
  end.

Definition SequenceConditionItem_get_condition_function
    (children_calls : list (result (M World bool))) : result (M World bool) :=
  match comprehension children_calls with
  | Ok child_funcs => Ok (SequenceConditionItem_cond_func child_funcs)
  | Raise e => Raise e
  end.

(** [RangeConditionItem._generate_subconfig]. *)
Definition _generate_subconfig (name description : string) (memory : bool)
    (pv : string) (low_value high_value : pyval) : AnyConditionItem :=
  let low :=
    ConditionItem (name +:+ "_lower_bound")
      ("Lower bound for " +:+ name +:+ " check")
      pv low_value greater_equal in
  let high :=
    ConditionItem (name +:+ "_upper_bound")
      ("Upper bound for " +:+ name +:+ " check")
      pv high_value less_equal in
  SequenceConditionItem name description memory [low; high].

(** [item.get_condition_function()], dispatched on the class of [item].
    [UseCheckConditionItem] has no such method.  For a range the method is
    that of the sequence [_generate_subconfig] builds, whose two children are
    [ConditionItem]s; the case below is written on those two children, and
    [get_condition_function_Range] (below) shows it is the call the source
    makes. *)
Fixpoint get_condition_function (item : AnyConditionItem)
  : result (M World bool) :=
  match item with
  | ConditionItem _ _ pv value operator =>
      ConditionItem_get_condition_function pv value operator
  | SequenceConditionItem _ _ _ children =>
      SequenceConditionItem_get_condition_function
        (map get_condition_function children)
  | RangeConditionItem _ _ _ pv low_value high_value =>
      SequenceConditionItem_get_condition_function
        [ConditionItem_get_condition_function pv low_value greater_equal;
         ConditionItem_get_condition_function pv high_value less_equal]
  | UseCheckConditionItem _ _ _ => Raise AttributeError
  end.

(** *** Tree nodes *)

Inductive Status : Type := SUCCESS | FAILURE | RUNNING | INVALID.

(** The nodes the assembly builds, each with the arguments its constructor
    was given. *)
Inductive Behaviour : Type :=
| ConditionNode (name : string) (condition : M World bool)
| Sequence (name : string) (memory : bool) (children : list Behaviour)
| ActionNode (name : string)
    (work_func : M World bool -> M World Status)
    (completion_condition : M World bool)
| CheckAndDo (name : string) (check do : Behaviour).

(** [get_sequence_tree], given the outcome of each child's [get_tree]. *)
Definition get_sequence_tree (name : string) (memory : bool)
    (children_calls : list (result Behaviour)) : result Behaviour :=
  match comprehension children_calls with
  | Ok children => Ok (Sequence name memory children)
  | Raise e => Raise e
  end.

Definition ConditionItem_get_tree (name pv : string) (value : pyval)
    (operator : ConditionOperator) : result Behaviour :=
  match ConditionItem_get_condition_function pv value operator with
  | Ok cond_func => Ok (ConditionNode name cond_func)
  | Raise e => Raise e
  end.

(** [item.get_tree()] for a condition item.  [UseCheckConditionItem] inherits
    [BaseItem.get_tree], which raises [NotImplementedError]. *)
Fixpoint condition_get_tree (item : AnyConditionItem) : result Behaviour :=
  match item with
  | ConditionItem name _ pv value operator =>
      ConditionItem_get_tree name pv value operator
  | SequenceConditionItem name _ memory children =>
      get_sequence_tree name memory (map condition_get_tree children)
  | RangeConditionItem name _ memory pv low_value high_value =>
      get_sequence_tree name memory
        [ConditionItem_get_tree (name +:+ "_lower_bound") pv low_value
           greater_equal;
         ConditionItem_get_tree (name +:+ "_upper_bound") pv high_value
           less_equal]
  | UseCheckConditionItem _ _ _ => Raise NotImplementedError
  end.

(** *** Action items *)

(** [SetPVActionItem] and [IncPVActionItem]: [amount] is the field [value]
    of the first and [increment] of the second.  [loop_period_sec], a float
    number of seconds in the source, is counted in whole milliseconds. *)
Inductive ActionClass : Type := SetPV | IncPV.

Record ActionItem : Type := mkActionItem {
  class : ActionClass;
  name : string;
  description : string;
  pv : string;
  amount : pyval;
  loop_period_sec : Z;
  termination_check : AnyConditionItem
}.

Definition SetPVActionItem (name description pv : string) (value : pyval)
    (loop_period_sec : Z) (termination_check : AnyConditionItem) : ActionItem :=
  mkActionItem SetPV name description pv value loop_period_sec
    termination_check.

Definition IncPVActionItem (name description pv : string) (increment : pyval)
    (loop_period_sec : Z) (termination_check : AnyConditionItem) : ActionItem :=
  mkActionItem IncPV name description pv increment loop_period_sec
    termination_check.

(** The [try] block of [SetPVActionItem.get_tree.work_func]. *)
Definition SetPV_work_body (self : ActionItem)
    (comp_condition : M World bool) : M World Status :=
  let* check_pv := lift (item_pv (termination_check self)) in
  let* value := caget check_pv in
  let* done := comp_condition in
  if done then ret SUCCESS
  else
    (log logger DEBUG (ValueIs (name self) value) ;;;
     caput (pv self) (amount self) ;;;
     sleep (loop_period_sec self) ;;;
     ret RUNNING).

(** The [try] block of [IncPVActionItem.get_tree.work_func]. *)
Definition IncPV_work_body (self : ActionItem)
    (comp_condition : M World bool) : M World Status :=
  let* value := caget (pv self) in
  log logging DEBUG (WfValueIs (name self) value) ;;;
  let* done := comp_condition in
  if done then ret SUCCESS
  else
    (let* target := lift (add value (amount self)) in
     caput (pv self) target ;;;
     sleep (loop_period_sec self) ;;;
     ret RUNNING).

Definition work_body (self : ActionItem) : M World bool -> M World Status :=
  match class self with
  | SetPV => SetPV_work_body self
  | IncPV => IncPV_work_body self
  end.

(** The [except Exception as ex] clause, the same in both routines. *)
Definition work_handler (self : ActionItem) (ex : exn) : M World Status :=
  log logger WARNING (WorkFailed (name self) ex) ;;;
  ret FAILURE.

(** The closure [work_func] of either [get_tree]. *)
Definition work_func (self : ActionItem) (comp_condition : M World bool)
  : M World Status :=
  try_except_Exception (work_body self comp_condition) (work_handler self).

(** [SetPVActionItem.get_tree] and [IncPVActionItem.get_tree]. *)
Definition action_get_tree (self : ActionItem) : result Behaviour :=
  match get_condition_function (termination_check self) with
  | Ok comp_cond => Ok (ActionNode (name self) (work_func self) comp_cond)
  | Raise e => Raise e
  end.

(** *** [CheckAndDoItem] and the store of action items

    A [CheckAndDoItem] holds a reference to its [do] item, an object the
    caller built and may still hold.  The store maps references to the
    current contents of the action items. *)

#[global] Instance ActionItem_inhabited : Inhabited ActionItem :=
  populate (SetPVActionItem "" "" "" (VInt 1) 1 ConditionItem_default).

Record CheckAndDoItem : Type := mkCheckAndDoItem {
  cd_name : string;
  cd_description : string;
  check : AnyConditionItem;
  do : positive
}.

(** [obj.termination_check = item]. *)
Definition set_termination_check (item : AnyConditionItem) (obj : ActionItem)
  : ActionItem :=
  mkActionItem (class obj) (name obj) (description obj) (pv obj) (amount obj)
    (loop_period_sec obj) item.

Definition setattr_termination_check (ref : positive)
    (item : AnyConditionItem) : M (gmap positive ActionItem) unit :=
  modify (fun h => <[ref := set_termination_check item (h !!! ref)]> h).

Definition getattr_termination_check (ref : positive)
  : M (gmap positive ActionItem) AnyConditionItem :=
  gets (fun h => termination_check (h !!! ref)).

(** [copy.copy(obj)]: a new object with the same field values. *)
Definition copy (ref : positive) : M (gmap positive ActionItem) positive :=
  fun h =>
    let ref' := fresh (dom h) in
    (Ok ref', <[ref' := h !!! ref]> h).

(** [CheckAndDoItem.__post_init__]. *)
Definition __post_init__ (self : CheckAndDoItem)
  : M (gmap positive ActionItem) unit :=
  let* tc := getattr_termination_check (do self) in
  if String.eqb (item_name tc) ""
  then setattr_termination_check (do self) UseCheckConditionItem_default
  else ret tt.

(** The generated [__init__]: the fields are stored, then [__post_init__]
    runs. *)
Definition CheckAndDoItem__init__ (name description : string)
    (check : AnyConditionItem) (do : positive)
  : M (gmap positive ActionItem) CheckAndDoItem :=
  let self := mkCheckAndDoItem name description check do in
  __post_init__ self ;;;
  ret self.

(** [CheckAndDoItem.get_tree]. *)
Definition get_tree (self : CheckAndDoItem)
  : M (gmap positive ActionItem) Behaviour :=
  let* tc := getattr_termination_check (do self) in
  let* active_do :=
    (if isinstance_UseCheckConditionItem tc
     then
       (let* active_do := copy (do self) in
        setattr_termination_check active_do (check self) ;;;
        ret active_do)
     else ret (do self)) in
  let* check_node := lift (condition_get_tree (check self)) in
  let* do_node := (fun h => (action_get_tree (h !!! active_do), h)) in
  ret (CheckAndDo (cd_name self) check_node do_node).

(** [n] assemblies of the same description, one after the other. *)
Fixpoint get_tree_times (n : nat) (self : CheckAndDoItem)
  : M (gmap positive ActionItem) (list Behaviour) :=
  match n with
  | O => ret []
  | S n' =>
      let* node := get_tree self in
      let* nodes := get_tree_times n' self in
      ret (node :: nodes)
  end.

(** The [completion_condition] the [do] node of a [CheckAndDo] was built
    with. *)
Definition do_completion_condition (node : Behaviour)
  : option (M World bool) :=
  match node with
  | CheckAndDo _ _ (ActionNode _ _ completion_condition) =>
      Some completion_condition
  | _ => None
  end.

(** *** Reference definitions for the statements

    [compare] is the comparison each [ConditionOperator] stands for.
    [all_true child_funcs w w'] says that the functions of [child_funcs],
    called one after the other from [w], all returned true and left [w'].
    [leaf_comparison], [conjunction] and [range_condition] follow the
    specification's wording of a leaf comparison, of a conjunction of two
    conditions and of a range. *)

Definition compare (o : ConditionOperator) : pyval -> pyval -> result bool :=
  match o with
  | equal => operator_eq
  | not_equal => operator_ne
  | less => operator_lt
  | greater => operator_gt
  | less_equal => operator_le
  | greater_equal => operator_ge
  end.

Inductive all_true : list (M World bool) -> World -> World -> Prop :=
| all_true_nil w : all_true [] w w
| all_true_cons cf rest w w1 w2 :
    cf w = (Ok true, w1) ->
    all_true rest w1 w2 ->
    all_true (cf :: rest) w w2.

Definition leaf_comparison (pv : string)
    (cmp : pyval -> pyval -> result bool) (target : pyval) : M World bool :=
  fun w =>
    match caget pv w with
    | (Ok (Some v), w') => (cmp v target, w')
    | (Ok None, w') => (Ok false, w')
    | (Raise e, w') => (Raise e, w')
    end.

Definition conjunction (first second : M World bool) : M World bool :=
  fun w =>
    match first w with
    | (Ok true, w') => second w'
    | other => other
    end.

Definition range_condition (pv : string) (low high : pyval) : M World bool :=
  conjunction (leaf_comparison pv operator_ge low)
              (leaf_comparison pv operator_le high).

(** Two readings that the code does not bear out, kept to be refuted: that
    neither building a [CheckAndDoItem] nor assembling it any number of times
    changes the [do] object the caller passed; and that a work routine
    always returns a status, whatever is raised inside it. *)
Definition do_never_mutated : Prop :=
  forall (h : gmap positive ActionItem) name description check do obj n
         self h1,
    h !! do = Some obj ->
    CheckAndDoItem__init__ name description check do h = (Ok self, h1) ->
    h1 !! do = Some obj /\
    snd (get_tree_times n self h1) !! do = Some obj.

Definition work_func_never_raises : Prop :=
  forall self comp_condition w,
    exists st w', work_func self comp_condition w = (Ok st, w').

(** *** Further reference definitions

    [item_keys] lists the keys a condition item compares, in declared order
    (a range compares its key twice).  [has_use_check] says that a
    [UseCheckConditionItem] occurs in the item.  [reads w w' keys] says that
    [w'] is [w] after reads of [keys] and nothing else: same variables, the
    reads appended to the trace, some entries of [faults] consumed. *)

Fixpoint item_keys (item : AnyConditionItem) : list string :=
  match item with
  | ConditionItem _ _ pv _ _ => [pv]
  | SequenceConditionItem _ _ _ children => concat (map item_keys children)
  | RangeConditionItem _ _ _ pv _ _ => [pv; pv]
  | UseCheckConditionItem _ _ _ => []
  end.

Fixpoint has_use_check (item : AnyConditionItem) : bool :=
  match item with
  | ConditionItem _ _ _ _ _ => false
  | SequenceConditionItem _ _ _ children => existsb has_use_check children
  | RangeConditionItem _ _ _ _ _ _ => false
  | UseCheckConditionItem _ _ _ => true
  end.

Definition reads (w w' : World) (keys : list string) : Prop :=
  pvs w' = pvs w /\
  trace w' = trace w ++ map Ecaget keys /\
  exists n, faults w' = drop n (faults w).

(** [reads_prefix all_keys f]: in every world, [f] only reads, the keys it
    reads are the first ones of [all_keys], and all of them when it returns
    true. *)
Definition reads_prefix (all_keys : list string) (f : M World bool) : Prop :=
  forall w,
    exists keys,
      keys `prefix_of` all_keys /\
      reads w (snd (f w)) keys /\
      (fst (f w) = Ok true -> keys = all_keys).

(** A number against a string, and the operators that order their
    arguments (all but [equal] and [not_equal]). *)
Definition mixed (a b : pyval) : bool :=
  match a, b with
  | VInt _, VStr _ | VStr _, VInt _ => true
  | _, _ => false
  end.

Definition ordering (o : ConditionOperator) : bool :=
  match o with
  | equal | not_equal => false
  | _ => true
  end.

(** The conditions held by the [ConditionNode] leaves of a tree built from
    a condition item, in order. *)
Fixpoint conditions_of (node : Behaviour) : list (M World bool) :=
  match node with
  | ConditionNode _ condition => [condition]
  | Sequence _ _ children => concat (map conditions_of children)
  | ActionNode _ _ _ => []
  | CheckAndDo _ _ _ => []
  end.

(** *** [ParallelItem] *)

Inductive ParallelMode : Type :=
| Base | SuccessOnAll | SuccessOnONe | SuccessOnSelected.

(** The [.value] of each member, as written in the source. *)
Definition ParallelMode_value (m : ParallelMode) : string :=
  match m with
  | Base => "Base"
  | SuccessOnAll => "SuccesOnAll"
  | SuccessOnONe => "SuccessOnOne"
  | SuccessOnSelected => "SuccessOnSelected"
  end.

(** A [Parallel] node with the arguments it was built with; [P] is the type
    of policies and [T] that of child nodes. *)
Record Parallel (P T : Type) : Type := mkParallel {
  parallel_name : string;
  parallel_policy : P;
  parallel_children : list T
}.
Arguments mkParallel {P T} _ _ _.

(** [ParallelItem.get_tree], given the outcome of each child's [get_tree]
    and the attribute lookup of [py_trees.common.ParallelPolicy]: the
    children are assembled first, the policy is looked up when the node is
    built. *)
Definition ParallelItem_get_tree {P T : Type}
    (ParallelPolicy_getattr : string -> result P)
    (name : string) (policy : ParallelMode)
    (children_calls : list (result T)) : result (Parallel P T) :=
  match comprehension children_calls with
  | Ok children =>
      match ParallelPolicy_getattr (ParallelMode_value policy) with
      | Ok p => Ok (mkParallel name p children)
      | Raise e => Raise e
      end
  | Raise e => Raise e
  end.

(** The policy classes [py_trees.common.ParallelPolicy] has, and its
    attribute lookup. *)
Inductive ParallelPolicy : Type :=
| PolicyBase | PolicySuccessOnAll | PolicySuccessOnOne
| PolicySuccessOnSelected.

Definition ParallelPolicy_getattr (name : string) : result ParallelPolicy :=
  if String.eqb name "Base" then Ok PolicyBase
  else if String.eqb name "SuccessOnAll" then Ok PolicySuccessOnAll
  else if String.eqb name "SuccessOnOne" then Ok PolicySuccessOnOne
  else if String.eqb name "SuccessOnSelected" then Ok PolicySuccessOnSelected
  else Raise AttributeError.

End TreeConfig.

(** ** [beams/sequencer/helpers/Worker.py] *)

Module Worker.

Inductive level : Type := DEBUG | ERROR.

(** The log lines of the class. *)
Inductive message : Type :=
| AlreadyWorking
| StartingWork
| CallingStopWork (proc_name : string)
| NotWorking (proc_name : string)
| SendingTerminate (proc_name : string)
| EndingWork (proc_name : string)
| ProcessJoined (proc_name : string).

(** What the controller side does that the outside can observe: log lines,
    writes of the shared flag, calls on the process object, and whatever a
    callback reports of its own ([Ecallback]). *)
Inductive event : Type :=
| Elog (lvl : level) (msg : message)
| Eflag (value : bool)
| Estart
| Eterminate
| Ejoin
| Ecallback (what : string).

(** [do_work] is the value of the shared flag; [started] says that
    [work_proc] was started at some point; [live] counts the worker processes
    launched through this handle that have not been joined. *)
Record State : Type := mkState {
  do_work : bool;
  started : bool;
  live : nat;
  trace : list event
}.

(** The fields of a [Worker] that the two methods read.  [restartable] says
    whether [proc_type] lets [start] be called on a process object that was
    started before; [multiprocessing.Process] does not (it asserts). *)
Record Worker : Type := mkWorker {
  proc_name : string;
  stop_func : option (M State unit);
  restartable : bool
}.

(** The state [__init__] leaves: flag false, process not started. *)
Definition init : State := mkState false false O [].

Definition emit (e : event) : M State unit :=
  modify (fun s => mkState (do_work s) (started s) (live s) (trace s ++ [e])).

Definition log (lvl : level) (msg : message) : M State unit :=
  emit (Elog lvl msg).

(** [self.do_work.value = b]. *)
Definition set_do_work (b : bool) : M State unit :=
  modify (fun s => mkState b (started s) (live s) (trace s)) ;;;
  emit (Eflag b).

(** [self.work_proc.start()]. *)
Definition work_proc_start (self : Worker) : M State unit :=
  let* again := gets started in
  if again && negb (restartable self) then raise AssertionError
  else
    (modify (fun s => mkState (do_work s) true (S (live s)) (trace s)) ;;;
     emit Estart).

(** [self.work_proc.terminate()]: the signal is sent; a process that was
    never started has nothing to signal. *)
Definition work_proc_terminate : M State unit :=
  let* was_started := gets started in
  if was_started then emit Eterminate else raise AttributeError.

(** [self.work_proc.join()]: returns once the worker has exited. *)
Definition work_proc_join : M State unit :=
  let* was_started := gets started in
  if was_started
  then
    (modify (fun s =>
               mkState (do_work s) (started s) (Nat.pred (live s)) (trace s)) ;;;
     emit Ejoin)
  else raise AssertionError.

(** [Worker.start_work]. *)
Definition start_work (self : Worker) : M State unit :=
  let* working := gets do_work in
  if working then log ERROR AlreadyWorking
  else
    (set_do_work true ;;;
     work_proc_start self ;;;
     log DEBUG StartingWork).

(** [Worker.stop_work]. *)
Definition stop_work (self : Worker) : M State unit :=
  log DEBUG (CallingStopWork (proc_name self)) ;;;
  let* working := gets do_work in
  if negb working then log ERROR (NotWorking (proc_name self))
  else
    (set_do_work false ;;;
     log DEBUG (SendingTerminate (proc_name self)) ;;;
     work_proc_terminate ;;;
     match stop_func self with
     | Some f => f
     | None => ret tt
     end ;;;
     log DEBUG (EndingWork (proc_name self)) ;;;
     work_proc_join ;;;
     log DEBUG (ProcessJoined (proc_name self))).

(** The controller's calls, and a run of them; a call that raises leaves the
    state it reached, and the controller may go on calling. *)
Inductive call : Type := Start | Stop.

Definition do_call (self : Worker) (c : call) : M State unit :=
  match c with
  | Start => start_work self
  | Stop => stop_work self
  end.

Definition run (self : Worker) (calls : list call) (s : State) : State :=
  fold_left (fun s c => snd (do_call self c s)) calls s.

(** A state with further events recorded, and the callbacks the statements
    are about: those that return normally and touch nothing of the handle
    (they may record events of their own). *)
Definition with_events (s : State) (evs : list event) : State :=
  mkState (do_work s) (started s) (live s) (trace s ++ evs).

Definition returns_normally (f : M State unit) : Prop :=
  forall s, exists evs, f s = (Ok tt, with_events s evs).

Definition stop_func_returns_normally (self : Worker) : Prop :=
  forall f, stop_func self = Some f -> returns_normally f.

(** What every run of calls keeps true: a worker is live only while the flag
    is set, and the flag is set only on a process that was started. *)
Definition handle_invariant (s : State) : Prop :=
  (live s <= if do_work s then 1 else 0)%nat /\
  (do_work s = true -> started s = true).





Definition stop_work_always_joins : Prop :=
  forall self s,
    do_work s = true ->
    started s = true ->
    exists evs s',
      stop_work self s = (Ok tt, s') /\
      trace s' =
        trace s ++
        [Elog DEBUG (CallingStopWork (proc_name self));
         Eflag false;
         Elog DEBUG (SendingTerminate (proc_name self));
         Eterminate] ++
        evs ++
        [Elog DEBUG (EndingWork (proc_name self));
         Ejoin;
         Elog DEBUG (ProcessJoined (proc_name self))].

End Worker.

(** ** Concrete configurations

    The pairs of [beams/tests/artifacts/egg_generator.py] and a few worlds to
    run them in.  Periods are in milliseconds. *)

Module Examples.

Import TreeConfig.

(** Egg 2, first pair: [check_item_1], [do_item_1] (no termination check
    given, so the default [ConditionItem()]). *)
Definition check_item_1 : AnyConditionItem :=
  ConditionItem "ret_find_check" "" "RET:FOUND" (VInt 1) greater_equal.

Definition do_item_1 : ActionItem :=
  SetPVActionItem "ret_find_do" "" "RET:FOUND" (VInt 1) 10
    ConditionItem_default.

Definition store_1 : gmap positive ActionItem := {[ 1%positive := do_item_1 ]}.

(** Egg 1: the check, and the increment item as it is once bound to it. *)
Definition egg1_check : AnyConditionItem :=
  ConditionItem "self_test_check" "" "PERC:COMP" (VInt 100) greater_equal.

Definition egg1_do : ActionItem :=
  IncPVActionItem "self_test_do" "" "PERC:COMP" (VInt 10) 10 egg1_check.

Definition egg1_cond_func : M World bool :=
  ConditionItem_cond_func "PERC:COMP" (VInt 100) operator_ge.

(** A Set item whose termination check is a sequence of one condition. *)
Definition sequence_check : AnyConditionItem :=
  SequenceConditionItem "ret_found" "" false [check_item_1].

Definition do_with_sequence : ActionItem :=
  SetPVActionItem "ret_find_do" "" "RET:FOUND" (VInt 1) 10 sequence_check.

(** Worlds: the reticle found; nothing connected; a percentage at 0 with the
    first external call interrupted from the keyboard; the same with the
    third external call (the write) failing. *)
Definition world_found : World := mkWorld {[ "RET:FOUND" := VInt 1 ]} [] [].

Definition world_disconnected : World := mkWorld ∅ [] [].

Definition world_interrupted : World :=
  mkWorld {[ "PERC:COMP" := VInt 0 ]} [Some KeyboardInterrupt] [].

Definition world_write_fails : World :=
  mkWorld {[ "PERC:COMP" := VInt 0 ]}
    [None; None; Some (OtherError "write failed")] [].

(** Three leaf conditions over three keys, the second of which fails. *)
Definition world_abc : World :=
  mkWorld (<[ "A" := VInt 1 ]> (<[ "B" := VInt 0 ]> {[ "C" := VInt 1 ]}))
    [] [].

Definition child_A : M World bool :=
  ConditionItem_cond_func "A" (VInt 1) operator_eq.

Definition child_B : M World bool :=
  ConditionItem_cond_func "B" (VInt 1) operator_eq.

Definition child_C : M World bool :=
  ConditionItem_cond_func "C" (VInt 1) operator_eq.

(** A worker with a cleanup callback, and the state one [start_work]
    leaves. *)
Definition cleanup : M Worker.State unit :=
  Worker.emit (Worker.Ecallback "cleanup").

Definition worker : Worker.Worker :=
  Worker.mkWorker "work" (Some cleanup) false.

Definition working : Worker.State :=
  snd (Worker.start_work worker Worker.init).

(** A check with a nested range, and its condition function written out. *)
Definition nested_check : AnyConditionItem :=
  SequenceConditionItem "ready" "" false
    [check_item_1;
     RangeConditionItem "zoom" "" false "IM2L0:XTES:CLZ.RBV"
       (VInt 20) (VInt 30)].

Definition nested_cond_func : M World bool :=
  SequenceConditionItem_cond_func
    [ConditionItem_cond_func "RET:FOUND" (VInt 1) operator_ge;
     SequenceConditionItem_cond_func
       [ConditionItem_cond_func "IM2L0:XTES:CLZ.RBV" (VInt 20) operator_ge;
        ConditionItem_cond_func "IM2L0:XTES:CLZ.RBV" (VInt 30) operator_le]].

(** A child comparing the number under [A] with a string by [>=]. *)
Definition child_mixed : M World bool :=
  ConditionItem_cond_func "A" (VStr "OUT") operator_ge.

(** Egg 2's first [do] once bound to its check, the same with a negative
    loop period, and a world where the reticle is not found yet. *)
Definition do_item_1_bound : ActionItem :=
  SetPVActionItem "ret_find_do" "" "RET:FOUND" (VInt 1) 10 check_item_1.

Definition do_item_1_negative : ActionItem :=
  SetPVActionItem "ret_find_do" "" "RET:FOUND" (VInt 1) (-1) check_item_1.

Definition world_not_found : World :=
  mkWorld {[ "RET:FOUND" := VInt 0 ]} [] [].

(** A [do] with a named termination check of its own, in a store. *)
Definition own_check : AnyConditionItem :=
  ConditionItem "done" "" "RET:DONE" (VInt 1) equal.

Definition do_with_own_check : ActionItem :=
  SetPVActionItem "ret_find_do" "" "RET:FOUND" (VInt 1) 10 own_check.

Definition store_own : gmap positive ActionItem :=
  {[ 1%positive := do_with_own_check ]}.

(** A worker whose cleanup callback raises after reporting. *)
Definition failing_cleanup : M Worker.State unit :=
  Worker.emit (Worker.Ecallback "cleanup") ;;; raise (OtherError "cleanup").

Definition worker_failing_cleanup : Worker.Worker :=
  Worker.mkWorker "work" (Some failing_cleanup) false.


Definition stopped : Worker.State :=
  snd (Worker.stop_work worker working).

End Examples.

(** * Properties *)

Import TreeConfig.

(** ** The world *)

Lemma external_call_unfold w :
  external_call w =
  match next_fault w with
  | Some e => (Raise e, entered w)
  | None => (Ok tt, entered w)
  end.
Proof.
  destruct w as [p f t]. unfold external_call, next_fault, entered; simpl.
  destruct f as [|[e|] f]; reflexivity.
Qed.

Lemma caget_unfold pv w :
  caget pv w =
  match next_fault w with
  | Some e => (Raise e, entered w)
  | None => (Ok (pvs w !! pv), recorded (Ecaget pv) (entered w))
  end.
Proof.
  unfold caget, bind. rewrite external_call_unfold.
  destruct (next_fault w); reflexivity.
Qed.

(** ** Condition functions *)

Lemma operator_getattr_value o :
  operator_getattr (ConditionOperator_value o) = Ok (compare o).
Proof. destruct o; reflexivity. Qed.

Lemma ConditionItem_cond_func_leaf pv value op w :
  ConditionItem_cond_func pv value op w = leaf_comparison pv op value w.
Proof.
  unfold ConditionItem_cond_func, leaf_comparison, bind.
  destruct (caget pv w) as [[[v|]|e] w']; reflexivity.
Qed.

(** The source's call for a range,
    [self._generate_subconfig().get_condition_function()]. *)
Lemma get_condition_function_Range name description memory pv low high :
  get_condition_function
    (RangeConditionItem name description memory pv low high)
  = get_condition_function
      (_generate_subconfig name description memory pv low high).
Proof. reflexivity. Qed.

Lemma condition_get_tree_Range name description memory pv low high :
  condition_get_tree (RangeConditionItem name description memory pv low high)
  = condition_get_tree
      (_generate_subconfig name description memory pv low high).
Proof. reflexivity. Qed.

(** C4. The condition function of a leaf [ConditionItem] exists (the operator
    lookup cannot fail) and, evaluated in any world, makes one read of the
    configured key: if that read raises, so does the function; if the key is
    unavailable the result is false; otherwise the result is the configured
    comparison applied to the value read and the configured target.  The read
    is the only event added to the trace. *)
Theorem ConditionItem_condition_function
    (name description pv : string) (value : pyval)
    (operator : ConditionOperator) :
  exists cond_func,
    get_condition_function (ConditionItem name description pv value operator)
    = Ok cond_func /\
    forall w,
      cond_func w =
      match next_fault w with
      | Some e => (Raise e, entered w)
      | None =>
          (match pvs w !! pv with
           | None => Ok false
           | Some val => compare operator val value
           end,
           recorded (Ecaget pv) (entered w))
      end.
Proof.
  exists (ConditionItem_cond_func pv value (compare operator)). split.
  - simpl. unfold ConditionItem_get_condition_function.
    now rewrite operator_getattr_value.
  - intros w. rewrite ConditionItem_cond_func_leaf.
    unfold leaf_comparison. rewrite caget_unfold.
    destruct (next_fault w); [reflexivity|].
    destruct (pvs w !! pv); reflexivity.
Qed.

(** *** The conjunction loop *)

Lemma cond_func_loop_false child_funcs w :
  cond_func_loop false child_funcs w = (Ok false, w).
Proof. destruct child_funcs; reflexivity. Qed.

Lemma cond_func_loop_cons cf rest w :
  cond_func_loop true (cf :: rest) w =
  match cf w with
  | (Ok true, w') => cond_func_loop true rest w'
  | (Ok false, w') => (Ok false, w')
  | (Raise e, w') => (Raise e, w')
  end.
Proof.
  simpl. unfold bind. destruct (cf w) as [[[|]|e] w']; reflexivity.
Qed.

Lemma cond_func_loop_app pre rest w w1 :
  all_true pre w w1 ->
  cond_func_loop true (pre ++ rest) w = cond_func_loop true rest w1.
Proof.
  induction 1 as [|cf pre' w w1 w2 Hcf _ IH]; [reflexivity|].
  rewrite <- app_comm_cons, cond_func_loop_cons, Hcf. exact IH.
Qed.

Lemma cond_func_loop_true_inv child_funcs :
  forall w w',
    cond_func_loop true child_funcs w = (Ok true, w') ->
    all_true child_funcs w w'.
Proof.
  induction child_funcs as [|cf rest IH]; intros w w' H.
  - inversion H; subst. constructor.
  - rewrite cond_func_loop_cons in H.
    destruct (cf w) as [[[|]|e] w1] eqn:Hcf; try discriminate.
    econstructor; eauto.
Qed.

Lemma cond_func_loop_false_inv child_funcs :
  forall w w',
    cond_func_loop true child_funcs w = (Ok false, w') ->
    exists pre cf post w1,
      child_funcs = pre ++ cf :: post /\
      all_true pre w w1 /\ cf w1 = (Ok false, w').
Proof.
  induction child_funcs as [|cf rest IH]; intros w w' H.
  - discriminate.
  - rewrite cond_func_loop_cons in H.
    destruct (cf w) as [[[|]|e] w1] eqn:Hcf; try discriminate.
    + destruct (IH _ _ H) as (pre & cf' & post & w2 & -> & Hpre & Hcf').
      exists (cf :: pre), cf', post, w2. repeat split; [|exact Hcf'].
      econstructor; eauto.
    + inversion H; subst.
      exists [], cf, rest, w. repeat split; [constructor|exact Hcf].
Qed.

(** C3. The conjunction of a [SequenceConditionItem], over any list of child
    condition functions.  With no child it returns true and does nothing.
    The children are called in list order, each from the world the one
    before left: if they all return true the conjunction returns true, in the
    world the last one left; if those of [pre] return true and the next
    child [cf] returns false, the conjunction returns false in the very world
    [cf] left, whatever the later children [post] are, so none of them is
    called.  Conversely the conjunction returns true only when every child
    did, and returns false only at a child that returned false after all the
    earlier ones returned true.  The function the item builds is this
    conjunction over its children's functions. *)
Theorem SequenceConditionItem_conjunction :
  (forall w, SequenceConditionItem_cond_func [] w = (Ok true, w)) /\
  (forall child_funcs w w',
      all_true child_funcs w w' ->
      SequenceConditionItem_cond_func child_funcs w = (Ok true, w')) /\
  (forall pre cf post w w1 w2,
      all_true pre w w1 ->
      cf w1 = (Ok false, w2) ->
      SequenceConditionItem_cond_func (pre ++ cf :: post) w
      = (Ok false, w2)) /\
  (forall child_funcs w w',
      SequenceConditionItem_cond_func child_funcs w = (Ok true, w') ->
      all_true child_funcs w w') /\
  (forall child_funcs w w',
      SequenceConditionItem_cond_func child_funcs w = (Ok false, w') ->
      exists pre cf post w1,
        child_funcs = pre ++ cf :: post /\
        all_true pre w w1 /\ cf w1 = (Ok false, w')) /\
  (forall name description memory children child_funcs,
      comprehension (map get_condition_function children) = Ok child_funcs ->
      get_condition_function
        (SequenceConditionItem name description memory children)
      = Ok (SequenceConditionItem_cond_func child_funcs)).
Proof.
  unfold SequenceConditionItem_cond_func. repeat split.
  - intros child_funcs w w' H.
    rewrite <- (app_nil_r child_funcs), (cond_func_loop_app _ _ _ _ H).
    reflexivity.
  - intros pre cf post w w1 w2 Hpre Hcf.
    rewrite (cond_func_loop_app _ _ _ _ Hpre), cond_func_loop_cons, Hcf.
    reflexivity.
  - apply cond_func_loop_true_inv.
  - apply cond_func_loop_false_inv.
  - intros name description memory children child_funcs H. simpl.
    unfold SequenceConditionItem_get_condition_function. now rewrite H.
Qed.

(** C8. The condition function of a [RangeConditionItem] exists and, in every
    world, returns what the conjunction of the leaf comparison
    [value >= low] with the leaf comparison [value <= high], both over the
    item's key, returns; it is the very function built for a
    [SequenceConditionItem] whose children are those two leaf comparisons
    written as [ConditionItem]s. *)
Theorem RangeConditionItem_is_conjunction
    (name description : string) (memory : bool) (pv : string)
    (low high : pyval) :
  exists cond_func,
    get_condition_function
      (RangeConditionItem name description memory pv low high)
    = Ok cond_func /\
    (forall w, cond_func w = range_condition pv low high w) /\
    (forall n d m n1 d1 n2 d2,
        get_condition_function
          (SequenceConditionItem n d m
             [ConditionItem n1 d1 pv low greater_equal;
              ConditionItem n2 d2 pv high less_equal])
        = Ok cond_func).
Proof.
  exists (SequenceConditionItem_cond_func
            [ConditionItem_cond_func pv low operator_ge;
             ConditionItem_cond_func pv high operator_le]).
  repeat split.
  intros w. unfold SequenceConditionItem_cond_func.
  rewrite cond_func_loop_cons, ConditionItem_cond_func_leaf.
  unfold range_condition, conjunction.
  destruct (leaf_comparison pv operator_ge low w) as [[[|]|e] w1];
    try reflexivity.
  rewrite cond_func_loop_cons, ConditionItem_cond_func_leaf.
  destruct (leaf_comparison pv operator_le high w1) as [[[|]|e] w2];
    reflexivity.
Qed.

(** ** Work routines *)

Lemma caput_unfold pv value w :
  caput pv value w =
  match next_fault w with
  | Some e => (Raise e, entered w)
  | None =>
      (Ok tt,
       let w' := recorded (Ecaput pv value) (entered w) in
       match pvs w !! pv with
       | Some _ => mkWorld (<[pv := value]> (pvs w')) (faults w') (trace w')
       | None => w'
       end)
  end.
Proof.
  unfold caput, bind. rewrite external_call_unfold.
  destruct (next_fault w); reflexivity.
Qed.

Lemma sleep_unfold sec w :
  sleep sec w =
  if sec <? 0 then (Raise ValueError, w)
  else
    match next_fault w with
    | Some e => (Raise e, entered w)
    | None => (Ok tt, recorded (Esleep sec) (entered w))
    end.
Proof.
  unfold sleep. destruct (sec <? 0); [reflexivity|].
  unfold bind. rewrite external_call_unfold.
  destruct (next_fault w); reflexivity.
Qed.

Lemma work_func_unfold self comp_condition w :
  work_func self comp_condition w =
  match work_body self comp_condition w with
  | (Ok st, w1) => (Ok st, w1)
  | (Raise e, w1) =>
      if isinstance_Exception e
      then (Ok FAILURE,
            recorded (Elog logger WARNING (WorkFailed (name self) e)) w1)
      else (Raise e, w1)
  end.
Proof.
  unfold work_func, try_except_Exception.
  destruct (work_body self comp_condition w) as [[st|e] w1]; reflexivity.
Qed.

(** C5, as the code has it.  For either work routine and any completion
    condition: an exception raised inside the [try] block that is an instance
    of [Exception] is caught, a warning naming the item and the exception is
    logged, and the routine returns FAILURE; a status the block returns is
    returned as it is; an exception leaves the routine only if it is not
    an instance of [Exception] (it is then the one the block raised); and
    every exception raised inside the block that is not an instance of
    [Exception] does leave the routine, uncaught and unlogged, in the world
    where it was raised.  The exceptions that are not instances of
    [Exception] are exactly [KeyboardInterrupt] and [SystemExit]. *)
Theorem work_func_catches_Exception
    (self : ActionItem) (comp_condition : M World bool) (w : World) :
  (forall e w1,
      work_body self comp_condition w = (Raise e, w1) ->
      isinstance_Exception e = true ->
      work_func self comp_condition w
      = (Ok FAILURE,
         recorded (Elog logger WARNING (WorkFailed (name self) e)) w1)) /\
  (forall st w1,
      work_body self comp_condition w = (Ok st, w1) ->
      work_func self comp_condition w = (Ok st, w1)) /\
  (forall e w1,
      work_func self comp_condition w = (Raise e, w1) ->
      isinstance_Exception e = false /\
      work_body self comp_condition w = (Raise e, w1)) /\
  (forall e w1,
      work_body self comp_condition w = (Raise e, w1) ->
      isinstance_Exception e = false ->
      work_func self comp_condition w = (Raise e, w1)) /\
  (forall w1,
      work_body self comp_condition w = (Raise KeyboardInterrupt, w1) ->
      work_func self comp_condition w = (Raise KeyboardInterrupt, w1)) /\
  (forall w1,
      work_body self comp_condition w = (Raise SystemExit, w1) ->
      work_func self comp_condition w = (Raise SystemExit, w1)) /\
  (forall e,
      isinstance_Exception e = false <->
      e = KeyboardInterrupt \/ e = SystemExit).
Proof.
  rewrite work_func_unfold. split; [|split; [|split; [|split; [|split;
    [|split]]]]].
  - intros e w1 -> ->. reflexivity.
  - intros st w1 ->. reflexivity.
  - intros e w1.
    destruct (work_body self comp_condition w) as [[st|e'] w'];
      [discriminate|].
    destruct (isinstance_Exception e') eqn:He; [discriminate|].
    intros [= <- <-]. split; [exact He|reflexivity].
  - intros e w1 -> ->. reflexivity.
  - intros w1 ->. reflexivity.
  - intros w1 ->. reflexivity.
  - intros e. split.
    + destruct e; simpl; intros H; try discriminate H; auto.
    + intros [->| ->]; reflexivity.
Qed.

(** The normal path of the Set routine, when the termination check has a
    [pv] attribute and nothing raises: one read of the check's key; if the
    completion condition holds, SUCCESS and nothing more; otherwise a debug
    line, one write of the configured value to the configured key, one sleep
    of the configured period, and RUNNING. *)
Lemma SetPV_work_func_normal self comp_condition check_pv w value w1 :
  class self = SetPV ->
  item_pv (termination_check self) = Ok check_pv ->
  caget check_pv w = (Ok value, w1) ->
  (forall w2,
      comp_condition w1 = (Ok true, w2) ->
      work_func self comp_condition w = (Ok SUCCESS, w2)) /\
  (forall w2 w3 w4,
      comp_condition w1 = (Ok false, w2) ->
      caput (pv self) (amount self)
        (recorded (Elog logger DEBUG (ValueIs (name self) value)) w2)
      = (Ok tt, w3) ->
      sleep (loop_period_sec self) w3 = (Ok tt, w4) ->
      work_func self comp_condition w = (Ok RUNNING, w4)).
Proof.
  intros Hclass Hpv Hget. split.
  - intros w2 Hcc. rewrite work_func_unfold. unfold work_body.
    rewrite Hclass. unfold SetPV_work_body, bind, lift.
    now rewrite Hpv, Hget, Hcc.
  - intros w2 w3 w4 Hcc Hput Hsleep. rewrite work_func_unfold.
    unfold work_body. rewrite Hclass. unfold SetPV_work_body, bind, lift.
    rewrite Hpv, Hget, Hcc.
    change (log logger DEBUG (ValueIs (name self) value) w2)
      with (Ok tt, recorded (Elog logger DEBUG (ValueIs (name self) value)) w2).
    cbv beta iota. rewrite Hput. cbv beta iota. now rewrite Hsleep.
Qed.

Lemma SetPV_work_func_without_pv self comp_condition w :
  class self = SetPV ->
  item_pv (termination_check self) = Raise AttributeError ->
  work_func self comp_condition w
  = (Ok FAILURE,
     recorded (Elog logger WARNING (WorkFailed (name self) AttributeError)) w).
Proof.
  intros Hclass Hpv. rewrite work_func_unfold. unfold work_body.
  rewrite Hclass. unfold SetPV_work_body, bind, lift. now rewrite Hpv.
Qed.

(** C10. In the increment routine, when the read of the item's key returns
    nothing and the completion condition then returns false, the addition
    [value + increment] raises [TypeError]: the routine logs the warning and
    returns FAILURE, and neither writes nor sleeps (the world is the one the
    completion condition left, plus the warning). *)
Theorem IncPV_work_func_unreadable
    (self : ActionItem) (comp_condition : M World bool) (w w1 w2 : World) :
  class self = IncPV ->
  caget (pv self) w = (Ok None, w1) ->
  comp_condition
    (recorded (Elog logging DEBUG (WfValueIs (name self) None)) w1)
  = (Ok false, w2) ->
  work_func self comp_condition w
  = (Ok FAILURE,
     recorded (Elog logger WARNING (WorkFailed (name self) TypeError)) w2).
Proof.
  intros Hclass Hget Hcc. rewrite work_func_unfold. unfold work_body.
  rewrite Hclass. unfold IncPV_work_body, bind, lift. rewrite Hget.
  change (log logging DEBUG (WfValueIs (name self) None) w1)
    with (Ok tt, recorded (Elog logging DEBUG (WfValueIs (name self) None)) w1).
  cbv beta iota. rewrite Hcc. cbv beta iota.
  destruct (amount self); reflexivity.
Qed.

(** ** Tree assembly of a [CheckAndDoItem] *)

(** Induction over condition items, with the hypothesis on every child of a
    sequence. *)
Lemma AnyConditionItem_children_ind (P : AnyConditionItem -> Prop)
    (Hcond : forall name description pv value operator,
        P (ConditionItem name description pv value operator))
    (Hseq : forall name description memory children,
        Forall P children ->
        P (SequenceConditionItem name description memory children))
    (Hrange : forall name description memory pv low high,
        P (RangeConditionItem name description memory pv low high))
    (Huse : forall name description copy_from,
        P (UseCheckConditionItem name description copy_from)) :
  forall item, P item.
Proof.
  fix IH 1. intros [n d p v o | n d m children | n d m p lo hi | n d c].
  - apply Hcond.
  - apply Hseq. induction children as [|child rest IHrest].
    + constructor.
    + constructor; [apply IH | exact IHrest].
  - apply Hrange.
  - apply Huse.
Qed.

Lemma ConditionItem_get_condition_function_Ok pv value operator :
  ConditionItem_get_condition_function pv value operator
  = Ok (ConditionItem_cond_func pv value (compare operator)).
Proof.
  unfold ConditionItem_get_condition_function.
  now rewrite operator_getattr_value.
Qed.

(** A condition item whose condition function can be built can be turned
    into a node. *)
Lemma condition_get_tree_Ok item :
  (exists cond_func, get_condition_function item = Ok cond_func) ->
  exists node, condition_get_tree item = Ok node.
Proof.
  induction item as [n d p v o | n d m children IH | n d m p lo hi | n d c]
    using AnyConditionItem_children_ind; intros [f Hf]; simpl in *.
  - unfold ConditionItem_get_tree.
    rewrite ConditionItem_get_condition_function_Ok. eauto.
  - unfold SequenceConditionItem_get_condition_function in Hf.
    unfold get_sequence_tree.
    assert (exists nodes,
               comprehension (map condition_get_tree children) = Ok nodes)
      as [nodes ->]; [|eauto].
    destruct (comprehension (map get_condition_function children))
      as [fs|e] eqn:Hfs; [clear Hf|discriminate].
    revert fs Hfs. induction IH as [|child rest Hchild _ IHrest];
      intros fs Hfs; simpl in *; [eauto|].
    destruct (get_condition_function child) as [g|e] eqn:Hg; [|discriminate].
    destruct (Hchild (ex_intro _ g eq_refl)) as [node ->].
    destruct (comprehension (map get_condition_function rest))
      as [gs|e] eqn:Hgs; [|discriminate].
    destruct (IHrest gs eq_refl) as [nodes ->]. eauto.
  - unfold get_sequence_tree, ConditionItem_get_tree.
    rewrite !ConditionItem_get_condition_function_Ok. simpl. eauto.
  - discriminate.
Qed.

Lemma post_init_unfold self h :
  __post_init__ self h =
  (Ok tt,
   if String.eqb (item_name (termination_check (h !!! do self))) ""
   then <[do self :=
            set_termination_check UseCheckConditionItem_default
              (h !!! do self)]> h
   else h).
Proof.
  unfold __post_init__, bind, getattr_termination_check, gets. simpl.
  destruct (String.eqb _ _); reflexivity.
Qed.

Lemma CheckAndDoItem__init___unfold name description check do h :
  CheckAndDoItem__init__ name description check do h =
  (Ok (mkCheckAndDoItem name description check do),
   if String.eqb (item_name (termination_check (h !!! do))) ""
   then <[do := set_termination_check UseCheckConditionItem_default
                  (h !!! do)]> h
   else h).
Proof.
  unfold CheckAndDoItem__init__, bind. rewrite post_init_unfold. reflexivity.
Qed.

(** The two paths of [get_tree]. *)
Lemma get_tree_use_check self (h : gmap positive ActionItem) :
  isinstance_UseCheckConditionItem (termination_check (h !!! do self))
  = true ->
  let active_do := fresh (dom h) in
  let h' := <[active_do := set_termination_check (check self)
                             (h !!! do self)]> h in
  get_tree self h =
  match condition_get_tree (check self) with
  | Ok check_node =>
      match get_condition_function (check self) with
      | Ok comp_cond =>
          (Ok (CheckAndDo (cd_name self) check_node
                 (ActionNode (name (h !!! do self))
                    (work_func (set_termination_check (check self)
                                  (h !!! do self)))
                    comp_cond)),
           h')
      | Raise e => (Raise e, h')
      end
  | Raise e => (Raise e, h')
  end.
Proof.
  intros Huse active_do h'.
  unfold get_tree, bind, getattr_termination_check, gets. simpl.
  rewrite Huse. unfold copy, setattr_termination_check, modify, lift, ret.
  fold active_do. simpl.
  rewrite !lookup_total_insert_eq, insert_insert_eq. fold h'.
  destruct (condition_get_tree (check self)) as [check_node|e];
    [|reflexivity].
  unfold action_get_tree. simpl.
  destruct (get_condition_function (check self)); reflexivity.
Qed.

Lemma get_tree_own_check self (h : gmap positive ActionItem) :
  isinstance_UseCheckConditionItem (termination_check (h !!! do self))
  = false ->
  get_tree self h =
  match condition_get_tree (check self) with
  | Ok check_node =>
      match action_get_tree (h !!! do self) with
      | Ok do_node => (Ok (CheckAndDo (cd_name self) check_node do_node), h)
      | Raise e => (Raise e, h)
      end
  | Raise e => (Raise e, h)
  end.
Proof.
  intros Hown.
  unfold get_tree, bind, getattr_termination_check, gets. simpl.
  rewrite Hown. unfold lift, ret. simpl.
  destruct (condition_get_tree (check self)); [|reflexivity].
  destruct (action_get_tree (h !!! do self)); reflexivity.
Qed.

(** One assembly leaves every object of the store as it was. *)
Lemma get_tree_frame self (h : gmap positive ActionItem) ref obj :
  h !! ref = Some obj ->
  snd (get_tree self h) !! ref = Some obj.
Proof.
  intros Href.
  destruct (isinstance_UseCheckConditionItem
              (termination_check (h !!! do self))) eqn:Huse.
  - rewrite (get_tree_use_check self h Huse).
    assert (fresh (dom h) <> ref) as Hne.
    { intros <-. apply (is_fresh (dom h)). apply elem_of_dom. eauto. }
    destruct (condition_get_tree (check self));
      [destruct (get_condition_function (check self))|];
      simpl; now rewrite lookup_insert_ne.
  - rewrite (get_tree_own_check self h Huse).
    destruct (condition_get_tree (check self));
      [destruct (action_get_tree (h !!! do self))|]; exact Href.
Qed.

Lemma get_tree_times_frame n self :
  forall (h : gmap positive ActionItem) ref obj,
    h !! ref = Some obj ->
    snd (get_tree_times n self h) !! ref = Some obj.
Proof.
  induction n as [|n IH]; intros h ref obj Href; [exact Href|].
  simpl. unfold bind.
  pose proof (get_tree_frame self h ref obj Href) as H1.
  destruct (get_tree self h) as [[node|e] h1]; simpl in H1; [|exact H1].
  specialize (IH h1 ref obj H1).
  destruct (get_tree_times n self h1) as [[nodes|e] h2]; exact IH.
Qed.

(** C1. Build a [CheckAndDoItem] over a [do] object whose termination check
    has an empty name, then assemble it.  Whenever [check] has a condition
    function, assembly succeeds and the [do] node carries exactly that
    function as its completion condition, so both return the same result in
    every world; and whenever assembly succeeds, the completion condition of
    the [do] node is the condition function of [check]. *)
Theorem CheckAndDoItem_do_completes_on_check
    (h : gmap positive ActionItem) (name description : string)
    (check : AnyConditionItem) (do : positive) (obj : ActionItem) :
  h !! do = Some obj ->
  item_name (termination_check obj) = "" ->
  exists self h1,
    CheckAndDoItem__init__ name description check do h = (Ok self, h1) /\
    (forall cond_func,
        get_condition_function check = Ok cond_func ->
        exists node h2,
          get_tree self h1 = (Ok node, h2) /\
          do_completion_condition node = Some cond_func) /\
    (forall node h2,
        get_tree self h1 = (Ok node, h2) ->
        exists cond_func,
          get_condition_function check = Ok cond_func /\
          do_completion_condition node = Some cond_func).
Proof.
  intros Hdo Hname.
  rewrite CheckAndDoItem__init___unfold.
  rewrite (lookup_total_correct _ _ _ Hdo), Hname. simpl.
  eexists _, _. split; [reflexivity|].
  set (self := mkCheckAndDoItem name description check do).
  set (h1 := <[do := _]> h).
  assert (isinstance_UseCheckConditionItem
            (termination_check (h1 !!! TreeConfig.do self)) = true) as Huse.
  { unfold h1. simpl. now rewrite lookup_total_insert_eq. }
  rewrite (get_tree_use_check self h1 Huse). simpl. split.
  - intros cond_func Hf.
    destruct (condition_get_tree_Ok check (ex_intro _ _ Hf)) as [node ->].
    rewrite Hf. eexists _, _. split; reflexivity.
  - intros node h2.
    destruct (condition_get_tree check); [|discriminate].
    destruct (get_condition_function check) as [f|e]; [|discriminate].
    intros [= <- <-]. exists f. repeat split.
Qed.

(** C2, as the code has it.  Building a [CheckAndDoItem] writes to the
    caller's [do] object exactly when its termination check has an empty
    name: that field is then replaced, in place, by the
    [UseCheckConditionItem] marker (the other fields, and every other object,
    stay as they were).  Assembling, any number of times, changes no object
    that exists: the rebinding of the termination check to [check] is made on
    a fresh copy of [do], which differs from [do] in that field only. *)
Theorem get_tree_rebinds_a_copy
    (h : gmap positive ActionItem) (name description : string)
    (check : AnyConditionItem) (do : positive) (obj : ActionItem) :
  h !! do = Some obj ->
  exists self h1,
    CheckAndDoItem__init__ name description check do h = (Ok self, h1) /\
    h1 !! do =
      Some (if String.eqb (item_name (termination_check obj)) ""
            then set_termination_check UseCheckConditionItem_default obj
            else obj) /\
    (forall ref, ref <> do -> h1 !! ref = h !! ref) /\
    (forall n ref obj1,
        h1 !! ref = Some obj1 ->
        snd (get_tree_times n self h1) !! ref = Some obj1) /\
    (forall obj1,
        h1 !! do = Some obj1 ->
        isinstance_UseCheckConditionItem (termination_check obj1) = true ->
        h1 !! fresh (dom h1) = None /\
        snd (get_tree self h1) !! fresh (dom h1)
        = Some (set_termination_check check obj1)).
Proof.
  intros Hdo.
  rewrite CheckAndDoItem__init___unfold.
  rewrite (lookup_total_correct _ _ _ Hdo).
  eexists _, _. split; [reflexivity|].
  set (self := mkCheckAndDoItem name description check do).
  set (h1 := if String.eqb _ _ then _ else h).
  split; [|split; [|split]].
  - unfold h1. destruct (String.eqb _ _); [|exact Hdo].
    now rewrite lookup_insert_eq.
  - intros ref Hne. unfold h1. destruct (String.eqb _ _); [|reflexivity].
    now rewrite lookup_insert_ne.
  - intros n ref obj1. apply get_tree_times_frame.
  - intros obj1 Hobj1 Huse.
    assert (h1 !! fresh (dom h1) = None) as Hfresh.
    { apply not_elem_of_dom, is_fresh. }
    split; [exact Hfresh|].
    assert (isinstance_UseCheckConditionItem
              (termination_check (h1 !!! TreeConfig.do self)) = true) as Huse'.
    { simpl. now rewrite (lookup_total_correct _ _ _ Hobj1). }
    rewrite (get_tree_use_check self h1 Huse'). simpl.
    rewrite (lookup_total_correct _ _ _ Hobj1).
    destruct (condition_get_tree check);
      [destruct (get_condition_function check)|];
      simpl; now rewrite lookup_insert_eq.
Qed.

(** ** The Worker handle *)

Lemma stop_work_not_working self s :
  Worker.do_work s = false ->
  Worker.stop_work self s =
  (Ok tt,
   Worker.with_events s
     [Worker.Elog Worker.DEBUG (Worker.CallingStopWork (Worker.proc_name self));
      Worker.Elog Worker.ERROR (Worker.NotWorking (Worker.proc_name self))]).
Proof.
  intros Hflag. unfold Worker.stop_work, bind, Worker.log, Worker.emit,
    modify, gets, Worker.with_events. simpl. rewrite !Hflag. simpl.
  now rewrite <- app_assoc.
Qed.

Lemma start_work_working self s :
  Worker.do_work s = true ->
  Worker.start_work self s =
  (Ok tt, Worker.with_events s [Worker.Elog Worker.ERROR Worker.AlreadyWorking]).
Proof.
  intros Hflag. unfold Worker.start_work, bind, gets. rewrite Hflag.
  reflexivity.
Qed.

Lemma start_work_not_working self s :
  Worker.do_work s = false ->
  Worker.start_work self s =
  if Worker.started s && negb (Worker.restartable self)
  then (Raise AssertionError,
        Worker.mkState true (Worker.started s) (Worker.live s)
          (Worker.trace s ++ [Worker.Eflag true]))
  else (Ok tt,
        Worker.mkState true true (S (Worker.live s))
          (Worker.trace s ++
             [Worker.Eflag true; Worker.Estart;
              Worker.Elog Worker.DEBUG Worker.StartingWork])).
Proof.
  intros Hflag. unfold Worker.start_work, bind, gets. rewrite Hflag.
  unfold Worker.set_do_work, Worker.work_proc_start, Worker.log, Worker.emit,
    bind, modify, gets, raise. simpl.
  destruct (Worker.started s && negb (Worker.restartable self));
    [reflexivity|].
  simpl. now rewrite <- !app_assoc.
Qed.

Lemma stop_work_working self s :
  Worker.do_work s = true ->
  Worker.started s = true ->
  let pn := Worker.proc_name self in
  let s1 :=
    Worker.mkState false true (Worker.live s)
      (Worker.trace s ++
         [Worker.Elog Worker.DEBUG (Worker.CallingStopWork pn);
          Worker.Eflag false;
          Worker.Elog Worker.DEBUG (Worker.SendingTerminate pn);
          Worker.Eterminate]) in
  Worker.stop_work self s =
  ((match Worker.stop_func self with Some f => f | None => ret tt end ;;;
    Worker.log Worker.DEBUG (Worker.EndingWork pn) ;;;
    Worker.work_proc_join ;;;
    Worker.log Worker.DEBUG (Worker.ProcessJoined pn)) s1)%py.
Proof.
  intros Hflag Hstarted pn s1.
  unfold Worker.stop_work. fold pn.
  unfold bind at 1. unfold Worker.log at 1, Worker.emit at 1, modify at 1.
  unfold bind at 1, gets at 1. simpl. rewrite Hflag. simpl.
  unfold bind at 1. unfold Worker.set_do_work, bind at 1, modify at 1.
  unfold Worker.emit at 1, modify at 1. simpl.
  unfold bind at 1. unfold Worker.log at 1, Worker.emit at 1, modify at 1.
  simpl.
  unfold bind at 1. unfold Worker.work_proc_terminate, bind at 1, gets at 1.
  simpl. rewrite Hstarted. unfold Worker.emit at 1, modify at 1. simpl.
  rewrite <- !app_assoc. simpl. reflexivity.
Qed.

Lemma stop_work_working_callback self s r s' :
  Worker.do_work s = true ->
  Worker.started s = true ->
  let pn := Worker.proc_name self in
  let signalled :=
    Worker.mkState false true (Worker.live s)
      (Worker.trace s ++
         [Worker.Elog Worker.DEBUG (Worker.CallingStopWork pn);
          Worker.Eflag false;
          Worker.Elog Worker.DEBUG (Worker.SendingTerminate pn);
          Worker.Eterminate]) in
  match Worker.stop_func self with
  | Some f => f
  | None => ret tt
  end signalled = (r, s') ->
  Worker.stop_work self s =
  match r with
  | Ok _ =>
      if Worker.started s'
      then (Ok tt,
            Worker.mkState (Worker.do_work s') (Worker.started s')
              (Nat.pred (Worker.live s'))
              (Worker.trace s' ++
                 [Worker.Elog Worker.DEBUG (Worker.EndingWork pn);
                  Worker.Ejoin;
                  Worker.Elog Worker.DEBUG (Worker.ProcessJoined pn)]))
      else (Raise AssertionError,
            Worker.with_events s'
              [Worker.Elog Worker.DEBUG (Worker.EndingWork pn)])
  | Raise e => (Raise e, s')
  end.
Proof.
  intros Hflag Hstarted pn signalled Hcb.
  rewrite (stop_work_working self s Hflag Hstarted). cbv zeta.
  fold pn. fold signalled. unfold bind at 1. rewrite Hcb.
  destruct r as [[]|e]; [|reflexivity].
  unfold bind, Worker.log, Worker.work_proc_join, Worker.emit, modify, gets,
    raise, Worker.with_events. simpl.
  destruct (Worker.started s'); simpl; [|reflexivity].
  now rewrite <- !app_assoc.
Qed.

Lemma start_work_invariant self s :
  Worker.handle_invariant s ->
  Worker.handle_invariant (snd (Worker.start_work self s)).
Proof.
  intros [Hlive Hstarted].
  destruct (Worker.do_work s) eqn:Hflag.
  - rewrite (start_work_working self s Hflag). unfold Worker.handle_invariant.
    simpl. rewrite Hflag. auto.
  - rewrite (start_work_not_working self s Hflag).
    destruct (Worker.started s) eqn:Hs; simpl;
      [destruct (negb (Worker.restartable self))|];
      unfold Worker.handle_invariant; simpl; split; auto; lia.
Qed.

Lemma stop_work_invariant self s :
  Worker.stop_func_returns_normally self ->
  Worker.handle_invariant s ->
  Worker.handle_invariant (snd (Worker.stop_work self s)).
Proof.
  intros Hcb [Hlive Hstarted].
  destruct (Worker.do_work s) eqn:Hflag.
  - rewrite (stop_work_working self s Hflag (Hstarted eq_refl)).
    cbv zeta. unfold bind at 1.
    set (s1 := Worker.mkState false true _ _).
    assert (exists evs,
               match Worker.stop_func self with
               | Some f => f
               | None => ret tt
               end s1 = (Ok tt, Worker.with_events s1 evs)) as [evs ->].
    { destruct (Worker.stop_func self) as [f|] eqn:Hf.
      - apply (Hcb f Hf).
      - exists []. unfold ret, Worker.with_events. simpl.
        now rewrite app_nil_r. }
    unfold Worker.handle_invariant. simpl. split; [lia|discriminate].
  - rewrite (stop_work_not_working self s Hflag). unfold Worker.handle_invariant.
    simpl. rewrite Hflag. auto.
Qed.

Lemma run_invariant self calls :
  Worker.stop_func_returns_normally self ->
  forall s, Worker.handle_invariant s -> Worker.handle_invariant (Worker.run self calls s).
Proof.
  intros Hcb. induction calls as [|c calls IH]; intros s Hs; [exact Hs|].
  apply IH. destruct c; simpl.
  - now apply start_work_invariant.
  - now apply stop_work_invariant.
Qed.








(** C7, as the code has it.  [stop_work] on a started handle (flag set,
    process started), with a stop callback that returns normally after
    recording [evs], or with none ([evs] empty): it returns normally, and
    what it did, in order, is: its
    debug line, the write of false to the flag, a debug line, the terminate
    signal, the callback (if any), a debug line, the join, a last debug line.
    Afterwards the flag is false and the worker joined is no longer live. *)
Theorem stop_work_steps (self : Worker.Worker) (s : Worker.State)
    (evs : list Worker.event) :
  Worker.do_work s = true ->
  Worker.started s = true ->
  let pn := Worker.proc_name self in
  let signalled :=
    Worker.mkState false true (Worker.live s)
      (Worker.trace s ++
         [Worker.Elog Worker.DEBUG (Worker.CallingStopWork pn);
          Worker.Eflag false;
          Worker.Elog Worker.DEBUG (Worker.SendingTerminate pn);
          Worker.Eterminate]) in
  match Worker.stop_func self with
  | Some f => f signalled = (Ok tt, Worker.with_events signalled evs)
  | None => evs = []
  end ->
  Worker.stop_work self s =
  (Ok tt,
   Worker.mkState false true (Nat.pred (Worker.live s))
     (Worker.trace s ++
        [Worker.Elog Worker.DEBUG (Worker.CallingStopWork pn);
         Worker.Eflag false;
         Worker.Elog Worker.DEBUG (Worker.SendingTerminate pn);
         Worker.Eterminate] ++
        evs ++
        [Worker.Elog Worker.DEBUG (Worker.EndingWork pn);
         Worker.Ejoin;
         Worker.Elog Worker.DEBUG (Worker.ProcessJoined pn)])).
Proof.
  intros Hflag Hstarted pn signalled Hcb.
  rewrite (stop_work_working self s Hflag Hstarted). cbv zeta.
  fold pn. fold signalled. unfold bind at 1.
  assert (match Worker.stop_func self with
          | Some f => f
          | None => ret tt
          end signalled = (Ok tt, Worker.with_events signalled evs)) as ->.
  { destruct (Worker.stop_func self) as [f|]; [exact Hcb|].
    subst evs. unfold ret, Worker.with_events. simpl.
    now rewrite app_nil_r. }
  unfold bind, Worker.log, Worker.work_proc_join, Worker.emit, modify, gets,
    bind. simpl.
  f_equal. f_equal. rewrite <- !app_assoc. reflexivity.
Qed.

(** ** The Set routine with a sequence as termination check *)

(** C9. A [SetPVActionItem] whose termination check is a
    [SequenceConditionItem]: the routine fails on the lookup of the check's
    [pv] attribute before it reads anything, so it logs the warning and
    returns FAILURE whatever the completion condition is.  In particular for
    [Examples.do_with_sequence] in a world where its completion condition
    holds: the condition returns true, yet the routine returns FAILURE, with
    no read, no write and no sleep. *)
Theorem SetPV_work_func_sequence_check :
  (forall name description pv value period n d m children comp_condition w,
      work_func
        (SetPVActionItem name description pv value period
           (SequenceConditionItem n d m children))
        comp_condition w
      = (Ok FAILURE,
         recorded (Elog logger WARNING (WorkFailed name AttributeError)) w)) /\
  (exists comp_cond,
      get_condition_function (termination_check Examples.do_with_sequence)
      = Ok comp_cond /\
      fst (comp_cond Examples.world_found) = Ok true /\
      work_func Examples.do_with_sequence comp_cond Examples.world_found
      = (Ok FAILURE,
         mkWorld (pvs Examples.world_found) []
           [Elog logger WARNING
              (WorkFailed "ret_find_do" AttributeError)])).
Proof.
  split.
  - intros. now apply SetPV_work_func_without_pv.
  - eexists. split; [reflexivity|]. split; reflexivity.
Qed.

(** ** The statements at concrete configurations *)

(** Egg 2's first pair: built over the default termination check, then
    assembled. *)
Lemma CheckAndDoItem_do_completes_on_check_egg2 :
  Examples.store_1 !! 1%positive = Some Examples.do_item_1 /\
  item_name (termination_check Examples.do_item_1) = "" /\
  exists self h1,
    CheckAndDoItem__init__ "ret_find" "" Examples.check_item_1 1%positive
      Examples.store_1 = (Ok self, h1) /\
    (forall cond_func,
        get_condition_function Examples.check_item_1 = Ok cond_func ->
        exists node h2,
          get_tree self h1 = (Ok node, h2) /\
          do_completion_condition node = Some cond_func) /\
    (forall node h2,
        get_tree self h1 = (Ok node, h2) ->
        exists cond_func,
          get_condition_function Examples.check_item_1 = Ok cond_func /\
          do_completion_condition node = Some cond_func).
Proof.
  split; [reflexivity|]. split; [reflexivity|].
  apply (CheckAndDoItem_do_completes_on_check Examples.store_1 "ret_find" ""
           Examples.check_item_1 1%positive Examples.do_item_1);
    reflexivity.
Defined.

(** Building egg 2's first pair replaces the termination check of the
    caller's [do_item_1]. *)
Lemma do_mutated_by_construction : ~ do_never_mutated.
Proof.
  intros H.
  destruct (H Examples.store_1 "ret_find" "" Examples.check_item_1 1%positive
              Examples.do_item_1 O
              (mkCheckAndDoItem "ret_find" "" Examples.check_item_1 1%positive)
              (<[1%positive :=
                   set_termination_check UseCheckConditionItem_default
                     Examples.do_item_1]> Examples.store_1)
              eq_refl eq_refl) as [Hobj _].
  rewrite lookup_insert_eq in Hobj. discriminate Hobj.
Qed.

Lemma get_tree_rebinds_a_copy_egg2 :
  Examples.store_1 !! 1%positive = Some Examples.do_item_1 /\
  exists self h1,
    CheckAndDoItem__init__ "ret_find" "" Examples.check_item_1 1%positive
      Examples.store_1 = (Ok self, h1) /\
    h1 !! 1%positive =
      Some (if String.eqb
                 (item_name (termination_check Examples.do_item_1)) ""
            then set_termination_check UseCheckConditionItem_default
                   Examples.do_item_1
            else Examples.do_item_1) /\
    (forall ref, ref <> 1%positive -> h1 !! ref = Examples.store_1 !! ref) /\
    (forall n ref obj1,
        h1 !! ref = Some obj1 ->
        snd (get_tree_times n self h1) !! ref = Some obj1) /\
    (forall obj1,
        h1 !! 1%positive = Some obj1 ->
        isinstance_UseCheckConditionItem (termination_check obj1) = true ->
        h1 !! fresh (dom h1) = None /\
        snd (get_tree self h1) !! fresh (dom h1)
        = Some (set_termination_check Examples.check_item_1 obj1)).
Proof.
  split; [reflexivity|].
  apply (get_tree_rebinds_a_copy Examples.store_1 "ret_find" ""
           Examples.check_item_1 1%positive Examples.do_item_1).
  reflexivity.
Defined.

(** Three children, the second false: the third is not called (the trace
    holds the reads of [A] and [B] only). *)
Lemma SequenceConditionItem_conjunction_abc :
  let w1 := snd (Examples.child_A Examples.world_abc) in
  let w2 := snd (Examples.child_B w1) in
  all_true [Examples.child_A] Examples.world_abc w1 /\
  Examples.child_B w1 = (Ok false, w2) /\
  SequenceConditionItem_cond_func
    ([Examples.child_A] ++ Examples.child_B :: [Examples.child_C])
    Examples.world_abc = (Ok false, w2) /\
  trace w2 = [Ecaget "A"; Ecaget "B"].
Proof.
  intros w1 w2.
  assert (all_true [Examples.child_A] Examples.world_abc w1) as Hpre.
  { econstructor; [reflexivity|constructor]. }
  assert (Examples.child_B w1 = (Ok false, w2)) as Hcf by reflexivity.
  split; [exact Hpre|]. split; [exact Hcf|]. split; [|reflexivity].
  exact (proj1 (proj2 (proj2 SequenceConditionItem_conjunction))
           [Examples.child_A] Examples.child_B [Examples.child_C]
           Examples.world_abc w1 w2 Hpre Hcf).
Defined.

(** A keyboard interrupt during the first read leaves the increment
    routine. *)
Lemma work_func_lets_KeyboardInterrupt_through : ~ work_func_never_raises.
Proof.
  intros H.
  destruct (H Examples.egg1_do Examples.egg1_cond_func
              Examples.world_interrupted) as (st & w' & Hrun).
  vm_compute in Hrun. discriminate Hrun.
Qed.

(** A failing write in the increment routine: FAILURE, with the warning. *)
Lemma work_func_catches_Exception_write_fails :
  let body :=
    work_body Examples.egg1_do Examples.egg1_cond_func
      Examples.world_write_fails in
  fst body = Raise (OtherError "write failed") /\
  isinstance_Exception (OtherError "write failed") = true /\
  work_func Examples.egg1_do Examples.egg1_cond_func
    Examples.world_write_fails
  = (Ok FAILURE,
     recorded
       (Elog logger WARNING
          (WorkFailed "self_test_do" (OtherError "write failed")))
       (snd body)).
Proof.
  intros body. split; [reflexivity|]. split; [reflexivity|].
  apply (proj1 (work_func_catches_Exception Examples.egg1_do
                  Examples.egg1_cond_func Examples.world_write_fails));
    reflexivity.
Defined.

(** The increment routine of egg 1 with its key not connected. *)
Lemma IncPV_work_func_unreadable_egg1 :
  let w1 := snd (caget "PERC:COMP" Examples.world_disconnected) in
  let w2 :=
    snd (Examples.egg1_cond_func
           (recorded (Elog logging DEBUG (WfValueIs "self_test_do" None))
              w1)) in
  class Examples.egg1_do = IncPV /\
  caget (pv Examples.egg1_do) Examples.world_disconnected = (Ok None, w1) /\
  Examples.egg1_cond_func
    (recorded (Elog logging DEBUG (WfValueIs "self_test_do" None)) w1)
  = (Ok false, w2) /\
  work_func Examples.egg1_do Examples.egg1_cond_func
    Examples.world_disconnected
  = (Ok FAILURE,
     recorded (Elog logger WARNING (WorkFailed "self_test_do" TypeError)) w2).
Proof.
  intros w1 w2. split; [reflexivity|]. split; [reflexivity|].
  split; [reflexivity|].
  apply (IncPV_work_func_unreadable Examples.egg1_do Examples.egg1_cond_func
           Examples.world_disconnected w1 w2); reflexivity.
Defined.

Lemma cleanup_returns_normally :
  Worker.stop_func_returns_normally Examples.worker.
Proof.
  intros f [= <-] s. exists [Worker.Ecallback "cleanup"]. reflexivity.
Defined.




(** With a cleanup that raises, [stop_work] on a started handle does not
    return normally (and makes no join). *)
Lemma stop_work_leaves_without_join : ~ Worker.stop_work_always_joins.
Proof.
  intros H.
  destruct (H Examples.worker_failing_cleanup Examples.working
              eq_refl eq_refl) as (evs & s' & Hrun & _).
  vm_compute in Hrun. discriminate Hrun.
Qed.

(** Stopping the worker that one [start_work] started. *)
Lemma stop_work_steps_cleanup :
  Worker.do_work Examples.working = true /\
  Worker.started Examples.working = true /\
  Worker.stop_work Examples.worker Examples.working =
  (Ok tt,
   Worker.mkState false true O
     [Worker.Eflag true; Worker.Estart;
      Worker.Elog Worker.DEBUG Worker.StartingWork;
      Worker.Elog Worker.DEBUG (Worker.CallingStopWork "work");
      Worker.Eflag false;
      Worker.Elog Worker.DEBUG (Worker.SendingTerminate "work");
      Worker.Eterminate;
      Worker.Ecallback "cleanup";
      Worker.Elog Worker.DEBUG (Worker.EndingWork "work");
      Worker.Ejoin;
      Worker.Elog Worker.DEBUG (Worker.ProcessJoined "work")]).
Proof.
  split; [reflexivity|]. split; [reflexivity|].
  apply (stop_work_steps Examples.worker Examples.working
           [Worker.Ecallback "cleanup"]); reflexivity.
Defined.

(** * Further properties *)

(** ** Worlds in which no external call raises *)

Lemma entered_quiet w : faults w = [] -> entered w = w.
Proof. destruct w as [p f t]. simpl. intros ->. reflexivity. Qed.

Lemma next_fault_quiet w : faults w = [] -> next_fault w = None.
Proof. unfold next_fault. now intros ->. Qed.

Lemma caget_quiet pv w :
  faults w = [] ->
  caget pv w = (Ok (pvs w !! pv), recorded (Ecaget pv) w).
Proof.
  intros Hq. rewrite caget_unfold, (next_fault_quiet w Hq).
  now rewrite (entered_quiet w Hq).
Qed.

Lemma leaf_quiet pv value op w :
  faults w = [] ->
  ConditionItem_cond_func pv value op w =
  (match pvs w !! pv with
   | Some v => op v value
   | None => Ok false
   end,
   recorded (Ecaget pv) w).
Proof.
  intros Hq. rewrite ConditionItem_cond_func_leaf. unfold leaf_comparison.
  rewrite (caget_quiet pv w Hq). destruct (pvs w !! pv); reflexivity.
Qed.

(** ** Condition functions only read *)

Lemma reads_refl w : reads w w [].
Proof.
  split; [reflexivity|]. split; [simpl; now rewrite app_nil_r|].
  exists O. reflexivity.
Qed.

Lemma reads_trans w w1 w2 keys1 keys2 :
  reads w w1 keys1 -> reads w1 w2 keys2 -> reads w w2 (keys1 ++ keys2).
Proof.
  intros (Hp1 & Ht1 & n1 & Hf1) (Hp2 & Ht2 & n2 & Hf2).
  split; [congruence|]. split.
  - rewrite Ht2, Ht1, map_app. now rewrite app_assoc.
  - exists (n1 + n2)%nat. rewrite Hf2, Hf1. apply drop_drop.
Qed.

Lemma caget_reads pv w :
  match fst (caget pv w) with
  | Ok _ => reads w (snd (caget pv w)) [pv]
  | Raise _ => reads w (snd (caget pv w)) []
  end.
Proof.
  rewrite caget_unfold.
  assert (tail (faults w) = drop 1 (faults w)) as Htail
      by (destruct (faults w); reflexivity).
  destruct (next_fault w); simpl.
  - split; [reflexivity|]. split; [simpl; now rewrite app_nil_r|].
    exists 1%nat. exact Htail.
  - split; [reflexivity|]. split; [reflexivity|].
    exists 1%nat. exact Htail.
Qed.

Lemma leaf_reads_prefix pv value op :
  reads_prefix [pv] (ConditionItem_cond_func pv value op).
Proof.
  intros w. rewrite ConditionItem_cond_func_leaf. unfold leaf_comparison.
  pose proof (caget_reads pv w) as Hget.
  destruct (caget pv w) as [[[v|]|e] w1]; simpl in *.
  - exists [pv]. repeat split; try apply Hget. reflexivity.
  - exists [pv]. repeat split; try apply Hget. reflexivity.
  - exists []. split; [apply prefix_nil|]. split; [exact Hget|discriminate].
Qed.

Lemma cond_func_loop_reads_nil :
  reads_prefix [] (cond_func_loop true []).
Proof.
  intros w. exists []. split; [reflexivity|]. split; [apply reads_refl|].
  reflexivity.
Qed.

Lemma cond_func_loop_reads_cons f fs ks kss :
  reads_prefix ks f ->
  reads_prefix kss (cond_func_loop true fs) ->
  reads_prefix (ks ++ kss) (cond_func_loop true (f :: fs)).
Proof.
  intros Hf Hfs w. rewrite cond_func_loop_cons.
  destruct (Hf w) as (keys1 & Hpre1 & Hreads1 & Hfull1).
  destruct (f w) as [[[|]|e] w1]; simpl in *.
  - specialize (Hfull1 eq_refl). subst keys1.
    destruct (Hfs w1) as (keys2 & Hpre2 & Hreads2 & Hfull2).
    exists (ks ++ keys2). split; [now apply prefix_app|].
    split; [eapply reads_trans; eauto|].
    intros Htrue. now rewrite (Hfull2 Htrue).
  - exists keys1. split; [now apply prefix_app_r|].
    split; [exact Hreads1|discriminate].
  - exists keys1. split; [now apply prefix_app_r|].
    split; [exact Hreads1|discriminate].
Qed.

Lemma comprehension_cons_Ok {A} (call : result A) calls xs :
  comprehension (call :: calls) = Ok xs ->
  exists x xs', call = Ok x /\ comprehension calls = Ok xs' /\ xs = x :: xs'.
Proof.
  simpl. destruct call as [x|e]; [|discriminate].
  destruct (comprehension calls) as [xs'|e]; [|discriminate].
  intros [= <-]. eauto.
Qed.

(** X1. The condition function of any condition item only reads: in every
    world, evaluating it leaves the process variables as they are and adds to
    the trace nothing but reads, of the first keys of the item in declared
    order; when it returns true it has read every key of the item. *)
Theorem condition_function_only_reads
    (item : AnyConditionItem) (cond_func : M World bool) :
  get_condition_function item = Ok cond_func ->
  reads_prefix (item_keys item) cond_func.
Proof.
  revert cond_func.
  induction item as [n d p v o | n d m children IH | n d m p lo hi | n d c]
    using AnyConditionItem_children_ind; intros cond_func Hf.
  - simpl in Hf. rewrite ConditionItem_get_condition_function_Ok in Hf.
    injection Hf as <-. apply leaf_reads_prefix.
  - simpl in Hf. unfold SequenceConditionItem_get_condition_function in Hf.
    destruct (comprehension (map get_condition_function children))
      as [fs|e] eqn:Hfs; [|discriminate].
    injection Hf as <-. unfold SequenceConditionItem_cond_func. simpl.
    revert fs Hfs. induction IH as [|child rest Hchild _ IHrest];
      intros fs Hfs.
    + injection Hfs as <-. apply cond_func_loop_reads_nil.
    + change (map get_condition_function (child :: rest))
        with (get_condition_function child
                :: map get_condition_function rest) in Hfs.
      destruct (comprehension_cons_Ok _ _ _ Hfs)
        as (f & fs' & Hf & Hfs' & ->).
      simpl. apply cond_func_loop_reads_cons; [now apply Hchild|].
      now apply IHrest.
  - simpl in Hf. rewrite !ConditionItem_get_condition_function_Ok in Hf.
    injection Hf as <-. unfold SequenceConditionItem_cond_func.
    change (item_keys (RangeConditionItem n d m p lo hi))
      with ([p] ++ [p] ++ []).
    apply cond_func_loop_reads_cons; [apply leaf_reads_prefix|].
    apply cond_func_loop_reads_cons; [apply leaf_reads_prefix|].
    apply cond_func_loop_reads_nil.
  - discriminate.
Qed.

(** ** Which condition items can be evaluated and assembled *)

Lemma comprehension_existsb {A B} (p : A -> bool) (g : A -> result B)
    (e : exn) (l : list A) :
  Forall (fun x => if p x then g x = Raise e else exists y, g x = Ok y) l ->
  if existsb p l
  then comprehension (map g l) = Raise e
  else exists ys, comprehension (map g l) = Ok ys.
Proof.
  induction 1 as [|x l Hx _ IH]; simpl; [eauto|].
  destruct (p x); simpl.
  - now rewrite Hx.
  - destruct Hx as [y ->]. destruct (existsb p l).
    + now rewrite IH.
    + destruct IH as [ys ->]. eauto.
Qed.

Lemma has_use_check_outcomes (item : AnyConditionItem) :
  if has_use_check item
  then get_condition_function item = Raise AttributeError /\
       condition_get_tree item = Raise NotImplementedError
  else (exists cond_func, get_condition_function item = Ok cond_func) /\
       (exists node, condition_get_tree item = Ok node).
Proof.
  induction item as [n d p v o | n d m children IH | n d m p lo hi | n d c]
    using AnyConditionItem_children_ind; simpl.
  - unfold ConditionItem_get_tree.
    rewrite ConditionItem_get_condition_function_Ok. eauto.
  - unfold SequenceConditionItem_get_condition_function, get_sequence_tree.
    assert (Forall (fun x => if has_use_check x
                             then get_condition_function x
                                  = Raise AttributeError
                             else exists y, get_condition_function x = Ok y)
              children) as Hf.
    { eapply Forall_impl; [exact IH|]. intros x Hx.
      cbv beta in Hx. destruct (has_use_check x); destruct Hx; assumption. }
    assert (Forall (fun x => if has_use_check x
                             then condition_get_tree x
                                  = Raise NotImplementedError
                             else exists y, condition_get_tree x = Ok y)
              children) as Ht.
    { eapply Forall_impl; [exact IH|]. intros x Hx.
      cbv beta in Hx. destruct (has_use_check x); destruct Hx; assumption. }
    pose proof (comprehension_existsb _ _ _ _ Hf) as Hcf.
    pose proof (comprehension_existsb _ _ _ _ Ht) as Hct.
    destruct (existsb has_use_check children).
    + now rewrite Hcf, Hct.
    + destruct Hcf as [fs ->]. destruct Hct as [nodes ->]. eauto.
  - unfold get_sequence_tree, ConditionItem_get_tree.
    rewrite !ConditionItem_get_condition_function_Ok. simpl. eauto.
  - split; reflexivity.
Qed.

(** X2. A condition item has a condition function, and a tree node, exactly
    when no [UseCheckConditionItem] occurs in it: otherwise
    [get_condition_function] raises [AttributeError] and [get_tree] raises
    [NotImplementedError], however deep in nested sequences the marker
    sits. *)
Theorem use_check_marker_cannot_be_evaluated (item : AnyConditionItem) :
  if has_use_check item
  then get_condition_function item = Raise AttributeError /\
       condition_get_tree item = Raise NotImplementedError
  else (exists cond_func, get_condition_function item = Ok cond_func) /\
       (exists node, condition_get_tree item = Ok node).
Proof.
  pose proof (has_use_check_outcomes item) as H.
  destruct (has_use_check item); destruct H as [Hf Ht]; split; assumption.
Qed.

(** ** Ranges over integers *)

(** X3. A range with integer bounds, in a world where no external call
    raises: if the key holds the integer [v] the condition function returns
    whether [low <= v <= high], after two reads of the key, or after one
    read only when [v] is below [low]; if the key holds a string it raises
    [TypeError] after one read; if the key is unavailable it returns false
    after one read. *)
Theorem RangeConditionItem_on_integers
    (name description : string) (memory : bool) (pv : string) (low high : Z) :
  exists cond_func,
    get_condition_function
      (RangeConditionItem name description memory pv (VInt low) (VInt high))
    = Ok cond_func /\
    forall w,
      faults w = [] ->
      cond_func w =
      match pvs w !! pv with
      | Some (VInt v) =>
          (Ok ((low <=? v) && (v <=? high)),
           if low <=? v
           then recorded (Ecaget pv) (recorded (Ecaget pv) w)
           else recorded (Ecaget pv) w)
      | Some (VStr _) => (Raise TypeError, recorded (Ecaget pv) w)
      | None => (Ok false, recorded (Ecaget pv) w)
      end.
Proof.
  eexists. split.
  - simpl. rewrite !ConditionItem_get_condition_function_Ok. reflexivity.
  - intros w Hq. unfold SequenceConditionItem_cond_func.
    rewrite cond_func_loop_cons, (leaf_quiet _ _ _ w Hq).
    destruct (pvs w !! pv) as [[v|s]|] eqn:Hv; try reflexivity.
    change (compare greater_equal (VInt v) (VInt low)) with (Ok (low <=? v)).
    destruct (low <=? v); [|reflexivity].
    rewrite cond_func_loop_cons, leaf_quiet by exact Hq.
    change (pvs (recorded (Ecaget pv) w)) with (pvs w). rewrite Hv.
    change (compare less_equal (VInt v) (VInt high)) with (Ok (v <=? high)).
    destruct (v <=? high); reflexivity.
Qed.

(** ** Conjunctions: a raising child, and nesting *)

(** X4. In a conjunction, when the children before [cf] return true and [cf]
    raises, the conjunction raises the same exception in the world [cf]
    left: the later children are not called and nothing is caught. *)
Theorem SequenceConditionItem_child_raises
    (pre post : list (M World bool)) (cf : M World bool)
    (w w1 w2 : World) (e : exn) :
  all_true pre w w1 ->
  cf w1 = (Raise e, w2) ->
  SequenceConditionItem_cond_func (pre ++ cf :: post) w = (Raise e, w2).
Proof.
  intros Hpre Hcf. unfold SequenceConditionItem_cond_func.
  rewrite (cond_func_loop_app _ _ _ _ Hpre), cond_func_loop_cons, Hcf.
  reflexivity.
Qed.

Lemma cond_func_loop_split pre post w :
  cond_func_loop true (pre ++ post) w =
  conjunction (cond_func_loop true pre) (cond_func_loop true post) w.
Proof.
  revert w. induction pre as [|cf pre IH]; intros w; [reflexivity|].
  rewrite <- app_comm_cons. unfold conjunction.
  rewrite !cond_func_loop_cons.
  destruct (cf w) as [[[|]|e] w1]; try reflexivity.
  rewrite IH. reflexivity.
Qed.

Lemma comprehension_app_Ok {A} (calls1 calls2 : list (result A)) xs :
  comprehension (calls1 ++ calls2) = Ok xs <->
  exists xs1 xs2,
    comprehension calls1 = Ok xs1 /\ comprehension calls2 = Ok xs2 /\
    xs = xs1 ++ xs2.
Proof.
  revert xs. induction calls1 as [|[x|e] calls1 IH]; intros xs; simpl.
  - split; [eauto|]. now intros (xs1 & xs2 & [= <-] & -> & ->).
  - split.
    + destruct (comprehension (calls1 ++ calls2)) as [ys|e] eqn:Hys;
        [|discriminate].
      intros [= <-]. destruct (proj1 (IH ys) eq_refl)
        as (xs1 & xs2 & -> & -> & ->). eauto.
    + intros (xs1 & xs2 & H1 & H2 & ->).
      destruct (comprehension calls1) as [ys1|e]; [|discriminate].
      injection H1 as <-.
      now rewrite (proj2 (IH (ys1 ++ xs2)) (ex_intro _ ys1
                     (ex_intro _ xs2 (conj eq_refl (conj H2 eq_refl))))).
  - split; [discriminate|]. now intros (xs1 & xs2 & [=] & _).
Qed.

(** X5. Nesting does not matter: a [SequenceConditionItem] that has another
    one among its children has a condition function exactly when the item
    with that child's own children spliced in its place has one, and the two
    functions return the same result and leave the same world, in every
    world. *)
Theorem SequenceConditionItem_nesting
    (n d : string) (m : bool) (n' d' : string) (m' : bool)
    (pre inner post : list AnyConditionItem) :
  (forall nested,
      get_condition_function
        (SequenceConditionItem n d m
           (pre ++ SequenceConditionItem n' d' m' inner :: post))
      = Ok nested ->
      exists flat,
        get_condition_function
          (SequenceConditionItem n d m (pre ++ inner ++ post)) = Ok flat /\
        forall w, nested w = flat w) /\
  (forall flat,
      get_condition_function
        (SequenceConditionItem n d m (pre ++ inner ++ post)) = Ok flat ->
      exists nested,
        get_condition_function
          (SequenceConditionItem n d m
             (pre ++ SequenceConditionItem n' d' m' inner :: post))
        = Ok nested /\
        forall w, nested w = flat w).
Proof.
  assert (forall fpre finner fpost w,
             cond_func_loop true
               (fpre ++ cond_func_loop true finner :: fpost) w
             = cond_func_loop true (fpre ++ finner ++ fpost) w) as Hflat.
  { intros fpre finner fpost w.
    rewrite !cond_func_loop_split. unfold conjunction.
    destruct (cond_func_loop true fpre w) as [[[|]|e] w1]; try reflexivity.
    rewrite cond_func_loop_cons, cond_func_loop_split. unfold conjunction.
    destruct (cond_func_loop true finner w1) as [[[|]|e] w2]; reflexivity. }
  cbn [get_condition_function]. rewrite !List.map_app.
  change (map get_condition_function
            (SequenceConditionItem n' d' m' inner :: post))
    with (SequenceConditionItem_get_condition_function
            (map get_condition_function inner)
          :: map get_condition_function post).
  generalize (map get_condition_function pre) as A.
  generalize (map get_condition_function inner) as B.
  generalize (map get_condition_function post) as C.
  intros C B A. unfold SequenceConditionItem_get_condition_function.
  split.
  - intros nested Hn.
    match type of Hn with
    | match ?c with _ => _ end = _ =>
        destruct c as [fs|e] eqn:Hfs; [|discriminate]
    end.
    injection Hn as <-.
    apply comprehension_app_Ok in Hfs as (fpre & ftail & Hpre & Htail & ->).
    apply comprehension_cons_Ok in Htail as (f & fpost & Hf & Hpost & ->).
    destruct (comprehension B) as [finner|e] eqn:Hinner; [|discriminate].
    injection Hf as <-.
    assert (comprehension (A ++ B ++ C) = Ok (fpre ++ finner ++ fpost)) as ->.
    { apply comprehension_app_Ok. exists fpre, (finner ++ fpost).
      split; [exact Hpre|]. split; [|reflexivity].
      apply comprehension_app_Ok. eauto. }
    eexists. split; [reflexivity|]. intros w. apply Hflat.
  - intros flat Hf.
    match type of Hf with
    | match ?c with _ => _ end = _ =>
        destruct c as [fs|e] eqn:Hfs; [|discriminate]
    end.
    injection Hf as <-.
    apply comprehension_app_Ok in Hfs as (fpre & ftail & Hpre & Htail & ->).
    apply comprehension_app_Ok in Htail
        as (finner & fpost & Hinner & Hpost & ->).
    rewrite Hinner.
    assert (comprehension
              (A ++ Ok (SequenceConditionItem_cond_func finner) :: C)
            = Ok (fpre ++ SequenceConditionItem_cond_func finner :: fpost))
      as ->.
    { apply comprehension_app_Ok. eexists fpre, _.
      split; [exact Hpre|]. split; [|reflexivity].
      simpl. now rewrite Hpost. }
    eexists. split; [reflexivity|]. intros w. apply Hflat.
Qed.

(** ** Work routines in a world where no external call raises *)

Lemma compare_mixed o v target :
  mixed v target = true ->
  compare o v target =
  match o with
  | equal => Ok false
  | not_equal => Ok true
  | _ => Raise TypeError
  end.
Proof. destruct o, v, target; simpl; congruence. Qed.

(** X6. A leaf comparison of a number against a string (or the reverse), in
    a world where no external call raises and the key is connected: [equal]
    returns false, [not_equal] returns true, and the four ordering operators
    raise [TypeError] after the read.  A work routine whose termination
    check is such an ordering comparison, run with it as completion
    condition, returns FAILURE with the warning logged and writes nothing. *)
Theorem leaf_comparison_of_mixed_types
    (n d pv : string) (target v : pyval) (o : ConditionOperator) (w : World) :
  faults w = [] ->
  pvs w !! pv = Some v ->
  mixed v target = true ->
  exists cond_func,
    get_condition_function (ConditionItem n d pv target o) = Ok cond_func /\
    cond_func w =
      (match o with
       | equal => Ok false
       | not_equal => Ok true
       | _ => Raise TypeError
       end,
       recorded (Ecaget pv) w) /\
    (forall self,
        termination_check self = ConditionItem n d pv target o ->
        ordering o = true ->
        work_func self cond_func w =
        (Ok FAILURE,
         recorded (Elog logger WARNING (WorkFailed (name self) TypeError))
           (recorded (Ecaget pv)
              match class self with
              | SetPV => recorded (Ecaget pv) w
              | IncPV =>
                  recorded
                    (Elog logging DEBUG
                       (WfValueIs (name self) (pvs w !! TreeConfig.pv self)))
                    (recorded (Ecaget (TreeConfig.pv self)) w)
              end))).
Proof.
  intros Hq Hv Hmixed.
  exists (ConditionItem_cond_func pv target (compare o)).
  split; [apply ConditionItem_get_condition_function_Ok|].
  assert (forall w0, faults w0 = [] -> pvs w0 = pvs w ->
            ConditionItem_cond_func pv target (compare o) w0 =
            (match o with
             | equal => Ok false
             | not_equal => Ok true
             | _ => Raise TypeError
             end, recorded (Ecaget pv) w0)) as Hcc.
  { intros w0 Hq0 Hp0. rewrite (leaf_quiet _ _ _ w0 Hq0), Hp0, Hv.
    now rewrite (compare_mixed o v target Hmixed). }
  split; [now apply Hcc|].
  intros self Htc Hord. rewrite work_func_unfold. unfold work_body.
  destruct (class self).
  - unfold SetPV_work_body, bind, lift. rewrite Htc. simpl item_pv.
    cbv beta iota. rewrite (caget_quiet pv w Hq). cbv beta iota.
    rewrite Hcc by (simpl; auto).
    destruct o; try discriminate Hord; reflexivity.
  - unfold IncPV_work_body, bind, lift.
    rewrite (caget_quiet (TreeConfig.pv self) w Hq). cbv beta iota.
    change (log logging DEBUG
              (WfValueIs (name self) (pvs w !! TreeConfig.pv self))
              (recorded (Ecaget (TreeConfig.pv self)) w))
      with (Ok tt,
            recorded (Elog logging DEBUG
                        (WfValueIs (name self) (pvs w !! TreeConfig.pv self)))
              (recorded (Ecaget (TreeConfig.pv self)) w)).
    cbv beta iota. rewrite Hcc by (simpl; auto).
    destruct o; try discriminate Hord; reflexivity.
Qed.

(** ** What the status a work routine returns tells *)

Lemma caput_Ok_trace pv value w w' :
  caput pv value w = (Ok tt, w') ->
  trace w' = trace w ++ [Ecaput pv value].
Proof.
  rewrite caput_unfold. destruct (next_fault w); [discriminate|].
  intros [= <-]. destruct (pvs w !! pv); reflexivity.
Qed.

Lemma sleep_Ok sec w w' :
  sleep sec w = (Ok tt, w') ->
  0 <= sec /\ trace w' = trace w ++ [Esleep sec].
Proof.
  rewrite sleep_unfold. destruct (Z.ltb_spec sec 0); [discriminate|].
  destruct (next_fault w); [discriminate|].
  intros [= <-]. split; [assumption|reflexivity].
Qed.

(** How a [try] block can end normally: with SUCCESS right after the
    completion condition returned true, or with RUNNING after the condition
    returned false, a write to the item's key and a sleep. *)
Lemma work_body_Ok self comp_condition w st w' :
  work_body self comp_condition w = (Ok st, w') ->
  (st = SUCCESS /\ exists w1, comp_condition w1 = (Ok true, w')) \/
  (st = RUNNING /\
   exists w1 w2 wa target w3,
     comp_condition w1 = (Ok false, w2) /\
     caput (pv self) target wa = (Ok tt, w3) /\
     sleep (loop_period_sec self) w3 = (Ok tt, w')).
Proof.
  unfold work_body. destruct (class self).
  - unfold SetPV_work_body, bind, lift.
    destruct (item_pv (termination_check self)) as [cpv|e]; [|discriminate].
    destruct (caget cpv w) as [[value|e] w1]; [|discriminate].
    destruct (comp_condition w1) as [[[|]|e] w2] eqn:Hcc; [| |discriminate].
    + intros [= <- <-]. left. eauto.
    + unfold log, emit, modify. cbv beta iota.
      destruct (caput (pv self) (amount self) _) as [[[]|e] w3] eqn:Hput;
        [|discriminate].
      destruct (sleep (loop_period_sec self) w3) as [[[]|e] w4] eqn:Hsleep;
        [|discriminate].
      intros [= <- <-]. right. split; [reflexivity|].
      do 5 eexists. eauto.
  - unfold IncPV_work_body, bind, lift.
    destruct (caget (pv self) w) as [[value|e] w1]; [|discriminate].
    unfold log, emit, modify. cbv beta iota.
    destruct (comp_condition _) as [[[|]|e] w2] eqn:Hcc; [| |discriminate].
    + intros [= <- <-]. left. eauto.
    + destruct (add value (amount self)) as [target|e]; [|discriminate].
      destruct (caput (pv self) target w2) as [[[]|e] w3] eqn:Hput;
        [|discriminate].
      destruct (sleep (loop_period_sec self) w3) as [[[]|e] w4] eqn:Hsleep;
        [|discriminate].
      intros [= <- <-]. right. split; [reflexivity|].
      do 5 eexists. eauto.
Qed.

(** X9. With a negative loop period a work routine never returns RUNNING.
    Once the completion condition has returned false and the write has been
    made, [time.sleep] refuses the negative length: the routine logs the
    warning and returns FAILURE, and the write stays made. *)
Theorem negative_loop_period_fails_after_the_write
    (self : ActionItem) (comp_condition : M World bool) (w : World) :
  loop_period_sec self < 0 ->
  fst (work_func self comp_condition w) <> Ok RUNNING /\
  (forall check_pv value w1 w2 w3,
      class self = SetPV ->
      item_pv (termination_check self) = Ok check_pv ->
      caget check_pv w = (Ok value, w1) ->
      comp_condition w1 = (Ok false, w2) ->
      caput (pv self) (amount self)
        (recorded (Elog logger DEBUG (ValueIs (name self) value)) w2)
      = (Ok tt, w3) ->
      work_func self comp_condition w =
      (Ok FAILURE,
       recorded (Elog logger WARNING (WorkFailed (name self) ValueError)) w3))
  /\
  (forall value target w1 w2 w3,
      class self = IncPV ->
      caget (pv self) w = (Ok value, w1) ->
      comp_condition
        (recorded (Elog logging DEBUG (WfValueIs (name self) value)) w1)
      = (Ok false, w2) ->
      add value (amount self) = Ok target ->
      caput (pv self) target w2 = (Ok tt, w3) ->
      work_func self comp_condition w =
      (Ok FAILURE,
       recorded (Elog logger WARNING (WorkFailed (name self) ValueError)) w3)).
Proof.
  intros Hneg.
  assert (forall w3, sleep (loop_period_sec self) w3 = (Raise ValueError, w3))
    as Hsleep.
  { intros w3. unfold sleep. destruct (Z.ltb_spec (loop_period_sec self) 0);
      [reflexivity|lia]. }
  split; [|split].
  - rewrite work_func_unfold.
    destruct (work_body self comp_condition w) as [[st|e] w'] eqn:Hbody.
    + simpl. intros [= ->].
      destruct (work_body_Ok _ _ _ _ _ Hbody)
        as [[? _]|(_ & w1 & w2 & wa & target & w3 & _ & _ & Hs)];
        [discriminate|].
      rewrite Hsleep in Hs. discriminate.
    + destruct (isinstance_Exception e); simpl; discriminate.
  - intros check_pv value w1 w2 w3 Hclass Hpv Hget Hcc Hput.
    rewrite work_func_unfold. unfold work_body. rewrite Hclass.
    unfold SetPV_work_body, bind, lift. rewrite Hpv, Hget, Hcc.
    unfold log, emit, modify. cbv beta iota.
    unfold recorded in Hput. rewrite Hput. cbv beta iota.
    rewrite Hsleep. reflexivity.
  - intros value target w1 w2 w3 Hclass Hget Hcc Hadd Hput.
    rewrite work_func_unfold. unfold work_body. rewrite Hclass.
    unfold IncPV_work_body, bind, lift. rewrite Hget.
    unfold log, emit, modify. cbv beta iota.
    unfold recorded in Hcc. rewrite Hcc. cbv beta iota.
    rewrite Hadd. cbv beta iota. rewrite Hput. cbv beta iota.
    rewrite Hsleep. reflexivity.
Qed.

(** X10. What a returned status tells, for either routine and any completion
    condition.  SUCCESS: the completion condition returned true and the
    routine did nothing after it.  RUNNING: the completion condition returned
    false, the loop period is not negative, and the last two things done are
    one write to the item's key and one sleep of the loop period.  FAILURE:
    an instance of [Exception] was raised in the [try] block, and only the
    warning was added after it.  INVALID is never returned. *)
Theorem work_func_status_meaning
    (self : ActionItem) (comp_condition : M World bool) (w w' : World)
    (st : Status) :
  work_func self comp_condition w = (Ok st, w') ->
  match st with
  | SUCCESS => exists w1, comp_condition w1 = (Ok true, w')
  | RUNNING =>
      0 <= loop_period_sec self /\
      (exists w1 w2, comp_condition w1 = (Ok false, w2)) /\
      exists earlier target,
        trace w' =
        earlier ++ [Ecaput (pv self) target; Esleep (loop_period_sec self)]
  | FAILURE =>
      exists e w1,
        work_body self comp_condition w = (Raise e, w1) /\
        isinstance_Exception e = true /\
        w' = recorded (Elog logger WARNING (WorkFailed (name self) e)) w1
  | INVALID => False
  end.
Proof.
  rewrite work_func_unfold.
  destruct (work_body self comp_condition w) as [[st0|e] w0] eqn:Hbody.
  - intros [= <- <-].
    destruct (work_body_Ok _ _ _ _ _ Hbody)
      as [[-> Hcc]|(-> & w1 & w2 & wa & target & w3 & Hcc & Hput & Hs)].
    + exact Hcc.
    + destruct (sleep_Ok _ _ _ Hs) as [Hperiod Htrace].
      split; [exact Hperiod|]. split; [eauto|].
      exists (trace wa), target.
      rewrite Htrace, (caput_Ok_trace _ _ _ _ Hput), <- app_assoc.
      reflexivity.
  - destruct (isinstance_Exception e) eqn:He; [|discriminate].
    intros [= <- <-]. eauto.
Qed.

(** ** More on the assembly of a [CheckAndDoItem] *)

(** Assembly over the marker: the copy is made and bound to [check]. *)
Lemma get_tree_marker self (h : gmap positive ActionItem) obj cond_func :
  h !! do self = Some obj ->
  isinstance_UseCheckConditionItem (termination_check obj) = true ->
  get_condition_function (check self) = Ok cond_func ->
  exists node,
    get_tree self h =
      (Ok node, <[fresh (dom h) := set_termination_check (check self) obj]> h)
    /\ do_completion_condition node = Some cond_func.
Proof.
  intros Hdo Huse Hf.
  assert (isinstance_UseCheckConditionItem
            (termination_check (h !!! do self)) = true) as Huse'
      by now rewrite (lookup_total_correct _ _ _ Hdo).
  rewrite (get_tree_use_check self h Huse').
  rewrite (lookup_total_correct _ _ _ Hdo), Hf.
  destruct (condition_get_tree_Ok (check self) (ex_intro _ _ Hf))
    as [check_node ->].
  eexists. split; reflexivity.
Qed.

(** X11. A [do] object that has its own, named termination check: building
    the [CheckAndDoItem] leaves the store as it is, assembly leaves it as it
    is too (no copy is made), and the [do] node completes on the condition
    function of [do]'s own termination check, whatever [check] is.  Assembly
    succeeds whenever [check] and that termination check both have a
    condition function. *)
Theorem CheckAndDoItem_own_termination_check
    (h : gmap positive ActionItem) (name description : string)
    (check : AnyConditionItem) (do : positive) (obj : ActionItem) :
  h !! do = Some obj ->
  item_name (termination_check obj) <> "" ->
  isinstance_UseCheckConditionItem (termination_check obj) = false ->
  exists self,
    CheckAndDoItem__init__ name description check do h = (Ok self, h) /\
    snd (get_tree self h) = h /\
    (forall node h2,
        get_tree self h = (Ok node, h2) ->
        exists own,
          get_condition_function (termination_check obj) = Ok own /\
          do_completion_condition node = Some own) /\
    (forall f own,
        get_condition_function check = Ok f ->
        get_condition_function (termination_check obj) = Ok own ->
        exists node,
          get_tree self h = (Ok node, h) /\
          do_completion_condition node = Some own).
Proof.
  intros Hdo Hname Hown.
  rewrite CheckAndDoItem__init___unfold.
  rewrite (lookup_total_correct _ _ _ Hdo).
  apply String.eqb_neq in Hname. rewrite Hname.
  eexists. split; [reflexivity|].
  set (self := mkCheckAndDoItem name description check do).
  assert (isinstance_UseCheckConditionItem
            (termination_check (h !!! TreeConfig.do self)) = false) as Hown'.
  { simpl. now rewrite (lookup_total_correct _ _ _ Hdo). }
  rewrite (get_tree_own_check self h Hown'). simpl.
  rewrite (lookup_total_correct _ _ _ Hdo). unfold action_get_tree.
  split; [|split].
  - destruct (condition_get_tree check);
      [destruct (get_condition_function (termination_check obj))|];
      reflexivity.
  - intros node h2.
    destruct (condition_get_tree check); [|discriminate].
    destruct (get_condition_function (termination_check obj)) as [own|e];
      [|discriminate].
    intros [= <- <-]. exists own. split; reflexivity.
  - intros f own Hf Hownf.
    destruct (condition_get_tree_Ok check (ex_intro _ _ Hf)) as [node ->].
    rewrite Hownf. eexists. split; reflexivity.
Qed.

Lemma get_tree_depends_on_do self (h h' : gmap positive ActionItem) :
  h' !!! do self = h !!! do self ->
  fst (get_tree self h') = fst (get_tree self h).
Proof.
  intros Heq.
  destruct (isinstance_UseCheckConditionItem
              (termination_check (h !!! do self))) eqn:Huse.
  - rewrite (get_tree_use_check self h Huse).
    rewrite <- Heq in Huse. rewrite (get_tree_use_check self h' Huse), Heq.
    destruct (condition_get_tree (check self));
      [destruct (get_condition_function (check self))|]; reflexivity.
  - rewrite (get_tree_own_check self h Huse).
    rewrite <- Heq in Huse. rewrite (get_tree_own_check self h' Huse), Heq.
    destruct (condition_get_tree (check self));
      [destruct (action_get_tree (h !!! do self))|]; reflexivity.
Qed.

(** X12. Assembling a description again gives the same tree: if one
    [get_tree] returns [node], then [n] assemblies in a row return [n] times
    that [node], although each of them may have added a copy of [do] to the
    store. *)
Theorem get_tree_times_same_node
    (self : CheckAndDoItem) (h h1 : gmap positive ActionItem)
    (obj : ActionItem) (node : Behaviour) (n : nat) :
  h !! do self = Some obj ->
  get_tree self h = (Ok node, h1) ->
  fst (get_tree_times n self h) = Ok (replicate n node).
Proof.
  intros Hdo Hnode. revert h h1 Hdo Hnode.
  induction n as [|n IH]; intros h h1 Hdo Hnode; [reflexivity|].
  simpl. unfold bind. rewrite Hnode.
  pose proof (get_tree_frame self h _ _ Hdo) as Hdo1.
  rewrite Hnode in Hdo1. simpl in Hdo1.
  assert (fst (get_tree self h1) = Ok node) as Hnode1.
  { rewrite (get_tree_depends_on_do self h h1), Hnode; [reflexivity|].
    now rewrite (lookup_total_correct _ _ _ Hdo),
      (lookup_total_correct _ _ _ Hdo1). }
  destruct (get_tree self h1) as [r1 h2] eqn:Hnext. simpl in Hnode1.
  subst r1. specialize (IH h1 h2 Hdo1 Hnext).
  destruct (get_tree_times n self h1) as [[nodes|e] h3]; simpl in IH;
    [|discriminate].
  injection IH as ->. reflexivity.
Qed.

(** X13. One unconfigured [do] object shared by two [CheckAndDoItem]s:
    building the second changes nothing more, and whichever is assembled
    first, each [do] node completes on the condition function of its own
    item's [check]; the shared object still carries the marker afterwards. *)
Theorem shared_do_completes_on_each_check
    (h : gmap positive ActionItem) (do : positive) (obj : ActionItem)
    (n1 d1 n2 d2 : string) (c1 c2 : AnyConditionItem)
    (f1 f2 : M World bool) :
  h !! do = Some obj ->
  item_name (termination_check obj) = "" ->
  get_condition_function c1 = Ok f1 ->
  get_condition_function c2 = Ok f2 ->
  exists s1 s2 h1,
    CheckAndDoItem__init__ n1 d1 c1 do h = (Ok s1, h1) /\
    CheckAndDoItem__init__ n2 d2 c2 do h1 = (Ok s2, h1) /\
    (exists node1 ha node2 hb,
        get_tree s1 h1 = (Ok node1, ha) /\
        get_tree s2 ha = (Ok node2, hb) /\
        do_completion_condition node1 = Some f1 /\
        do_completion_condition node2 = Some f2 /\
        hb !! do = h1 !! do) /\
    (exists node2 ha node1 hb,
        get_tree s2 h1 = (Ok node2, ha) /\
        get_tree s1 ha = (Ok node1, hb) /\
        do_completion_condition node1 = Some f1 /\
        do_completion_condition node2 = Some f2 /\
        hb !! do = h1 !! do).
Proof.
  intros Hdo Hname Hf1 Hf2.
  set (marked := set_termination_check UseCheckConditionItem_default obj).
  set (h1 := <[do := marked]> h).
  assert (h1 !! do = Some marked) as Hdo1 by apply lookup_insert_eq.
  exists (mkCheckAndDoItem n1 d1 c1 do), (mkCheckAndDoItem n2 d2 c2 do), h1.
  split; [|split].
  - rewrite CheckAndDoItem__init___unfold.
    now rewrite (lookup_total_correct _ _ _ Hdo), Hname.
  - rewrite CheckAndDoItem__init___unfold.
    rewrite (lookup_total_correct _ _ _ Hdo1). simpl.
    unfold h1. now rewrite insert_insert_eq.
  - assert (forall sa sb fa fb,
               TreeConfig.do sa = do -> TreeConfig.do sb = do ->
               get_condition_function (check sa) = Ok fa ->
               get_condition_function (check sb) = Ok fb ->
               exists nodea ha nodeb hb,
                 get_tree sa h1 = (Ok nodea, ha) /\
                 get_tree sb ha = (Ok nodeb, hb) /\
                 do_completion_condition nodea = Some fa /\
                 do_completion_condition nodeb = Some fb /\
                 hb !! do = h1 !! do) as Hboth.
    { intros sa sb fa fb Hsa Hsb Hfa Hfb.
      destruct (get_tree_marker sa h1 marked fa) as (nodea & Hta & Hca);
        [now rewrite Hsa|reflexivity|exact Hfa|].
      pose proof (get_tree_frame sa h1 do marked Hdo1) as Hdoa.
      rewrite Hta in Hdoa. simpl in Hdoa.
      destruct (get_tree_marker sb _ marked fb
                  ltac:(rewrite Hsb; exact Hdoa) eq_refl Hfb)
        as (nodeb & Htb & Hcb).
      pose proof (get_tree_frame sb _ do marked Hdoa) as Hdob.
      rewrite Htb in Hdob. simpl in Hdob.
      do 4 eexists. split; [exact Hta|]. split; [exact Htb|].
      split; [exact Hca|]. split; [exact Hcb|]. now rewrite Hdob, Hdo1. }
    split.
    + apply (Hboth (mkCheckAndDoItem n1 d1 c1 do)
               (mkCheckAndDoItem n2 d2 c2 do) f1 f2); auto.
    + destruct (Hboth (mkCheckAndDoItem n2 d2 c2 do)
                  (mkCheckAndDoItem n1 d1 c1 do) f2 f1)
        as (node2 & ha & node1 & hb & ? & ? & ? & ? & ?); auto.
      do 4 eexists. eauto.
Qed.

(** X14. When assembly of a [CheckAndDoItem] fails.  It succeeds exactly
    when no [UseCheckConditionItem] occurs in [check] and the termination
    check of [do] is either the marker itself or free of markers.  A marker
    in [check] makes it raise [NotImplementedError] (the check is assembled
    first); otherwise a marker nested inside [do]'s own termination check
    makes it raise [AttributeError]. *)
Theorem get_tree_outcome
    (self : CheckAndDoItem) (h : gmap positive ActionItem)
    (obj : ActionItem) :
  h !! do self = Some obj ->
  match fst (get_tree self h) with
  | Ok _ =>
      has_use_check (check self) = false /\
      (isinstance_UseCheckConditionItem (termination_check obj) = true \/
       has_use_check (termination_check obj) = false)
  | Raise e =>
      (has_use_check (check self) = true /\ e = NotImplementedError) \/
      (has_use_check (check self) = false /\
       isinstance_UseCheckConditionItem (termination_check obj) = false /\
       has_use_check (termination_check obj) = true /\
       e = AttributeError)
  end.
Proof.
  intros Hdo.
  pose proof (has_use_check_outcomes (check self)) as Hcheck.
  pose proof (has_use_check_outcomes (termination_check obj)) as Hown.
  destruct (isinstance_UseCheckConditionItem (termination_check obj))
    eqn:Huse.
  - assert (isinstance_UseCheckConditionItem
              (termination_check (h !!! do self)) = true) as Huse'
        by now rewrite (lookup_total_correct _ _ _ Hdo).
    rewrite (get_tree_use_check self h Huse').
    destruct (has_use_check (check self)).
    + destruct Hcheck as [_ ->]. simpl. auto.
    + destruct Hcheck as [[f ->] [node ->]]. simpl. auto.
  - assert (isinstance_UseCheckConditionItem
              (termination_check (h !!! do self)) = false) as Huse'
        by now rewrite (lookup_total_correct _ _ _ Hdo).
    rewrite (get_tree_own_check self h Huse').
    rewrite (lookup_total_correct _ _ _ Hdo). unfold action_get_tree.
    destruct (has_use_check (check self)).
    + destruct Hcheck as [_ ->]. simpl. auto.
    + destruct Hcheck as [_ [node ->]].
      destruct (has_use_check (termination_check obj)).
      * destruct Hown as [-> _]. simpl. right. auto.
      * destruct Hown as [[own ->] _]. simpl. auto.
Qed.

(** ** More on the Worker handle *)

(** X15. Start, stop, stop.  On a handle whose flag is not set and whose
    process can be started (never started, or restartable), with a stop
    callback that returns normally after recording [evs], or with none
    ([evs] empty): [start_work] then [stop_work] both return normally, after
    which the flag is false again and as many workers are live as before;
    the trace holds, in order, the flag write, the launch, the flag write
    back, the terminate signal, the callback and the join.  A further
    [stop_work] then only logs. *)
Theorem start_stop_stop
    (self : Worker.Worker) (s : Worker.State) (evs : list Worker.event) :
  Worker.do_work s = false ->
  Worker.started s && negb (Worker.restartable self) = false ->
  (forall s0,
      match Worker.stop_func self with
      | Some f => f s0 = (Ok tt, Worker.with_events s0 evs)
      | None => evs = []
      end) ->
  let pn := Worker.proc_name self in
  let stopped :=
    Worker.mkState false true (Worker.live s)
      (Worker.trace s ++
         [Worker.Eflag true; Worker.Estart;
          Worker.Elog Worker.DEBUG Worker.StartingWork;
          Worker.Elog Worker.DEBUG (Worker.CallingStopWork pn);
          Worker.Eflag false;
          Worker.Elog Worker.DEBUG (Worker.SendingTerminate pn);
          Worker.Eterminate] ++
         evs ++
         [Worker.Elog Worker.DEBUG (Worker.EndingWork pn);
          Worker.Ejoin;
          Worker.Elog Worker.DEBUG (Worker.ProcessJoined pn)]) in
  exists working,
    Worker.start_work self s = (Ok tt, working) /\
    Worker.stop_work self working = (Ok tt, stopped) /\
    Worker.stop_work self stopped =
    (Ok tt,
     Worker.with_events stopped
       [Worker.Elog Worker.DEBUG (Worker.CallingStopWork pn);
        Worker.Elog Worker.ERROR (Worker.NotWorking pn)]).
Proof.
  intros Hflag Hcan Hcb pn stopped.
  eexists. split.
  { rewrite (start_work_not_working self s Hflag), Hcan. reflexivity. }
  split; [|now apply stop_work_not_working].
  erewrite stop_work_working_callback; [| reflexivity | reflexivity |].
  2:{ specialize (Hcb (Worker.mkState false true (S (Worker.live s))
                         ((Worker.trace s ++
                             [Worker.Eflag true; Worker.Estart;
                              Worker.Elog Worker.DEBUG Worker.StartingWork]) ++
                            [Worker.Elog Worker.DEBUG
                               (Worker.CallingStopWork pn);
                             Worker.Eflag false;
                             Worker.Elog Worker.DEBUG
                               (Worker.SendingTerminate pn);
                             Worker.Eterminate]))).
      simpl. destruct (Worker.stop_func self) as [f|].
      - exact Hcb.
      - subst evs. unfold ret, Worker.with_events. simpl.
        now rewrite app_nil_r. }
  simpl. unfold stopped. f_equal. f_equal.
  rewrite <- !app_assoc. reflexivity.
Qed.

(** X16. Starting again after a stop, on a process that cannot be started
    twice (the standard [Process]): [start_work] sets the flag, then the
    launch raises [AssertionError], which is not caught.  The flag stays set
    although no worker was launched, so a later [start_work] is refused as
    already working. *)
Theorem restart_leaves_flag_set (self : Worker.Worker) (s : Worker.State) :
  Worker.restartable self = false ->
  Worker.started s = true ->
  Worker.do_work s = false ->
  let stuck :=
    Worker.mkState true true (Worker.live s)
      (Worker.trace s ++ [Worker.Eflag true]) in
  Worker.start_work self s = (Raise AssertionError, stuck) /\
  Worker.start_work self stuck =
  (Ok tt,
   Worker.with_events stuck [Worker.Elog Worker.ERROR Worker.AlreadyWorking]).
Proof.
  intros Hre Hstarted Hflag stuck. split.
  - rewrite (start_work_not_working self s Hflag), Hstarted, Hre.
    reflexivity.
  - now apply start_work_working.
Qed.

(** X17. In every state a run of [start_work] and [stop_work] calls reaches
    from the initial one (stop callback returning normally): when the flag is
    false no worker is live; when the flag is true the process has been
    started; and [stop_work] returns normally. *)
Theorem reachable_states_can_be_stopped
    (self : Worker.Worker) (calls : list Worker.call) :
  Worker.stop_func_returns_normally self ->
  let s := Worker.run self calls Worker.init in
  (Worker.do_work s = false -> Worker.live s = O) /\
  (Worker.do_work s = true -> Worker.started s = true) /\
  fst (Worker.stop_work self s) = Ok tt.
Proof.
  intros Hcb s.
  assert (Worker.handle_invariant Worker.init) as Hinit.
  { split; [simpl; lia|discriminate]. }
  destruct (run_invariant self calls Hcb _ Hinit) as [Hlive Hstarted].
  fold s in Hlive, Hstarted.
  split; [|split].
  - intros Hflag. rewrite Hflag in Hlive. lia.
  - exact Hstarted.
  - destruct (Worker.do_work s) eqn:Hflag.
    + set (signalled :=
             Worker.mkState false true (Worker.live s)
               (Worker.trace s ++
                  [Worker.Elog Worker.DEBUG
                     (Worker.CallingStopWork (Worker.proc_name self));
                   Worker.Eflag false;
                   Worker.Elog Worker.DEBUG
                     (Worker.SendingTerminate (Worker.proc_name self));
                   Worker.Eterminate])).
      assert (exists evs,
                 match Worker.stop_func self with
                 | Some f => f
                 | None => ret tt
                 end signalled = (Ok tt, Worker.with_events signalled evs))
        as [evs Hrun].
      { destruct (Worker.stop_func self) as [f|] eqn:Hf.
        - apply (Hcb f Hf).
        - exists []. unfold ret, Worker.with_events. simpl.
          now rewrite app_nil_r. }
      rewrite (stop_work_working_callback self s _ _ Hflag
                 (Hstarted eq_refl) Hrun).
      reflexivity.
    + now rewrite (stop_work_not_working self s Hflag).
Qed.

(** X18. A stop callback that raises: [stop_work] has already written the
    flag and sent the terminate signal; the exception leaves [stop_work],
    the join is never made, and since the flag is now false a later
    [stop_work] only logs: the worker stays unjoined. *)
Theorem raising_callback_skips_the_join
    (self : Worker.Worker) (s : Worker.State) (f : M Worker.State unit)
    (e : exn) (evs : list Worker.event) :
  Worker.do_work s = true ->
  Worker.started s = true ->
  Worker.stop_func self = Some f ->
  let pn := Worker.proc_name self in
  let signalled :=
    Worker.mkState false true (Worker.live s)
      (Worker.trace s ++
         [Worker.Elog Worker.DEBUG (Worker.CallingStopWork pn);
          Worker.Eflag false;
          Worker.Elog Worker.DEBUG (Worker.SendingTerminate pn);
          Worker.Eterminate]) in
  f signalled = (Raise e, Worker.with_events signalled evs) ->
  let left := Worker.with_events signalled evs in
  Worker.stop_work self s = (Raise e, left) /\
  Worker.live left = Worker.live s /\
  Worker.stop_work self left =
  (Ok tt,
   Worker.with_events left
     [Worker.Elog Worker.DEBUG (Worker.CallingStopWork pn);
      Worker.Elog Worker.ERROR (Worker.NotWorking pn)]).
Proof.
  intros Hflag Hstarted Hf pn signalled Hraise left.
  split; [|split].
  - rewrite (stop_work_working_callback self s (Raise e) left Hflag Hstarted);
      [reflexivity|].
    rewrite Hf. exact Hraise.
  - reflexivity.
  - now apply stop_work_not_working.
Qed.

(** ** [ParallelItem] *)

Lemma comprehension_map_Ok {A} (xs : list A) :
  comprehension (map Ok xs) = Ok xs.
Proof. induction xs as [|x xs IH]; simpl; [reflexivity|now rewrite IH]. Qed.

Lemma comprehension_first_Raise {A} (pre : list A) e post :
  comprehension (map Ok pre ++ Raise e :: post) = Raise e.
Proof. induction pre as [|x pre IH]; simpl; [reflexivity|now rewrite IH]. Qed.

Lemma comprehension_cases {A} (calls : list (result A)) :
  (exists xs, calls = map Ok xs) \/
  (exists pre e post, calls = map Ok pre ++ Raise e :: post).
Proof.
  induction calls as [|[x|e] calls IH].
  - left. exists []. reflexivity.
  - destruct IH as [[xs ->]|(pre & e & post & ->)].
    + left. exists (x :: xs). reflexivity.
    + right. exists (x :: pre), e, post. reflexivity.
  - right. exists [], e, calls. reflexivity.
Qed.

(** X19. The policy of a [ParallelItem] is looked up by the member's value,
    and the value of [SuccessOnAll] is spelled ["SuccesOnAll"].  With any
    policy namespace that has no attribute of that spelling, a
    [ParallelItem] with policy [SuccessOnAll] is never assembled: when all
    children assemble [get_tree] raises [AttributeError]; and when some
    child fails it raises the exception of the first child that fails,
    whatever the policy and the later children are.  Every list of child
    outcomes is of one of these two kinds.  With the four names of
    [py_trees.common.ParallelPolicy], the three other policies assemble
    whenever the children do, each with the class of its own name. *)
Theorem ParallelItem_SuccessOnAll_is_never_assembled
    (P T : Type) (getattr : string -> result P) (name : string)
    (children_calls : list (result T)) :
  getattr "SuccesOnAll" = Raise AttributeError ->
  (forall children,
      children_calls = map Ok children ->
      ParallelItem_get_tree getattr name SuccessOnAll children_calls
      = Raise AttributeError) /\
  (forall pre e post policy,
      children_calls = map Ok pre ++ Raise e :: post ->
      ParallelItem_get_tree getattr name policy children_calls = Raise e) /\
  ((exists children, children_calls = map Ok children) \/
   (exists pre e post, children_calls = map Ok pre ++ Raise e :: post)) /\
  (forall children policy,
      children_calls = map Ok children ->
      policy <> SuccessOnAll ->
      ParallelItem_get_tree ParallelPolicy_getattr name policy children_calls
      = Ok (mkParallel name
              match policy with
              | Base => PolicyBase
              | SuccessOnAll => PolicySuccessOnAll
              | SuccessOnONe => PolicySuccessOnOne
              | SuccessOnSelected => PolicySuccessOnSelected
              end
              children)).
Proof.
  intros Hmissing. split; [|split; [|split]].
  - intros children ->. unfold ParallelItem_get_tree.
    rewrite comprehension_map_Ok. simpl. now rewrite Hmissing.
  - intros pre e post policy ->. unfold ParallelItem_get_tree.
    now rewrite comprehension_first_Raise.
  - apply comprehension_cases.
  - intros children policy -> Hpolicy. unfold ParallelItem_get_tree.
    rewrite comprehension_map_Ok.
    destruct policy; try reflexivity. contradiction.
Qed.

(** ** The tree of a condition item and its condition function *)

Lemma cond_func_loop_singleton cf w :
  cond_func_loop true [cf] w = cf w.
Proof.
  rewrite cond_func_loop_cons. destruct (cf w) as [[[|]|e] w']; reflexivity.
Qed.

Lemma cond_func_loop_cons_conjunction cf rest w :
  cond_func_loop true (cf :: rest) w
  = conjunction cf (cond_func_loop true rest) w.
Proof.
  rewrite cond_func_loop_cons. unfold conjunction.
  destruct (cf w) as [[[|]|e] w']; reflexivity.
Qed.

Lemma conjunction_ext f f' g g' w :
  (forall w0, f w0 = f' w0) -> (forall w0, g w0 = g' w0) ->
  conjunction f g w = conjunction f' g' w.
Proof.
  intros Hf Hg. unfold conjunction. rewrite Hf.
  destruct (f' w) as [[[|]|e] w']; auto.
Qed.

(** X20. The tree and the condition function of a condition item agree: the
    conditions held by the leaves of the tree [get_tree] builds, called in
    order as one conjunction, return in every world what the item's
    condition function returns (and leave the same world). *)
Theorem condition_tree_agrees_with_condition_function
    (item : AnyConditionItem) (node : Behaviour) (cond_func : M World bool) :
  condition_get_tree item = Ok node ->
  get_condition_function item = Ok cond_func ->
  forall w,
    cond_func w = SequenceConditionItem_cond_func (conditions_of node) w.
Proof.
  unfold SequenceConditionItem_cond_func. revert node cond_func.
  induction item as [n d p v o | n d m children IH | n d m p lo hi | n d c]
    using AnyConditionItem_children_ind; intros node cond_func Ht Hf w.
  - simpl in Ht, Hf. unfold ConditionItem_get_tree in Ht.
    rewrite ConditionItem_get_condition_function_Ok in Ht, Hf.
    injection Ht as <-. injection Hf as <-.
    simpl conditions_of. now rewrite cond_func_loop_singleton.
  - simpl in Ht, Hf.
    unfold get_sequence_tree in Ht.
    unfold SequenceConditionItem_get_condition_function in Hf.
    destruct (comprehension (map condition_get_tree children))
      as [nodes|e] eqn:Hnodes; [|discriminate].
    destruct (comprehension (map get_condition_function children))
      as [fs|e] eqn:Hfs; [|discriminate].
    injection Ht as <-. injection Hf as <-.
    unfold SequenceConditionItem_cond_func. simpl conditions_of.
    revert nodes fs Hnodes Hfs w.
    induction IH as [|child rest Hchild _ IHrest];
      intros nodes fs Hnodes Hfs w.
    + injection Hnodes as <-. injection Hfs as <-. reflexivity.
    + change (map condition_get_tree (child :: rest))
        with (condition_get_tree child :: map condition_get_tree rest)
        in Hnodes.
      change (map get_condition_function (child :: rest))
        with (get_condition_function child
                :: map get_condition_function rest) in Hfs.
      destruct (comprehension_cons_Ok _ _ _ Hnodes)
        as (nd & nodes' & Hnd & Hnodes' & ->).
      destruct (comprehension_cons_Ok _ _ _ Hfs)
        as (f & fs' & Hf & Hfs' & ->).
      change (concat (map conditions_of (nd :: nodes')))
        with (conditions_of nd ++ concat (map conditions_of nodes')).
      rewrite cond_func_loop_cons_conjunction, cond_func_loop_split.
      apply conjunction_ext.
      * intros w0. now apply Hchild.
      * intros w0. now apply IHrest.
  - simpl in Ht, Hf. unfold get_sequence_tree, ConditionItem_get_tree in Ht.
    rewrite !ConditionItem_get_condition_function_Ok in Ht, Hf.
    simpl in Ht. injection Ht as <-. injection Hf as <-. reflexivity.
  - discriminate.
Qed.

(** ** The further statements at concrete configurations *)

Lemma condition_function_only_reads_nested :
  get_condition_function Examples.nested_check = Ok Examples.nested_cond_func
  /\ reads_prefix (item_keys Examples.nested_check) Examples.nested_cond_func.
Proof.
  split; [reflexivity|].
  apply (condition_function_only_reads Examples.nested_check
           Examples.nested_cond_func).
  reflexivity.
Defined.

(** The reticle flag between 0 and 5: two reads, true. *)
Lemma RangeConditionItem_on_integers_found :
  faults Examples.world_found = [] /\
  exists cond_func,
    get_condition_function
      (RangeConditionItem "found" "" false "RET:FOUND" (VInt 0) (VInt 5))
    = Ok cond_func /\
    cond_func Examples.world_found =
    (Ok true,
     recorded (Ecaget "RET:FOUND")
       (recorded (Ecaget "RET:FOUND") Examples.world_found)).
Proof.
  split; [reflexivity|].
  destruct (RangeConditionItem_on_integers "found" "" false "RET:FOUND" 0 5)
    as (cond_func & Hf & Hall).
  exists cond_func. split; [exact Hf|].
  exact (Hall Examples.world_found eq_refl).
Defined.

(** A true child, then one that raises [TypeError]: the third is not
    called. *)
Lemma SequenceConditionItem_child_raises_abc :
  let w1 := snd (Examples.child_A Examples.world_abc) in
  let w2 := snd (Examples.child_mixed w1) in
  all_true [Examples.child_A] Examples.world_abc w1 /\
  Examples.child_mixed w1 = (Raise TypeError, w2) /\
  SequenceConditionItem_cond_func
    ([Examples.child_A] ++ Examples.child_mixed :: [Examples.child_C])
    Examples.world_abc = (Raise TypeError, w2).
Proof.
  intros w1 w2.
  assert (all_true [Examples.child_A] Examples.world_abc w1) as Hpre.
  { econstructor; [reflexivity|constructor]. }
  assert (Examples.child_mixed w1 = (Raise TypeError, w2)) as Hcf
      by reflexivity.
  split; [exact Hpre|]. split; [exact Hcf|].
  exact (SequenceConditionItem_child_raises [Examples.child_A]
           [Examples.child_C] Examples.child_mixed Examples.world_abc w1 w2
           TypeError Hpre Hcf).
Defined.

(** The nested check and its flat form. *)
Lemma SequenceConditionItem_nesting_ready :
  get_condition_function
    (SequenceConditionItem "ready" "" false
       ([Examples.check_item_1] ++
        SequenceConditionItem "zoom" "" false
          [ConditionItem "low" "" "IM2L0:XTES:CLZ.RBV" (VInt 20)
             greater_equal;
           ConditionItem "high" "" "IM2L0:XTES:CLZ.RBV" (VInt 30)
             less_equal] :: []))
  = Ok Examples.nested_cond_func /\
  exists flat,
    get_condition_function
      (SequenceConditionItem "ready" "" false
         ([Examples.check_item_1] ++
          [ConditionItem "low" "" "IM2L0:XTES:CLZ.RBV" (VInt 20)
             greater_equal;
           ConditionItem "high" "" "IM2L0:XTES:CLZ.RBV" (VInt 30)
             less_equal] ++ []))
    = Ok flat /\
    forall w, Examples.nested_cond_func w = flat w.
Proof.
  split; [reflexivity|].
  apply (proj1 (SequenceConditionItem_nesting "ready" "" false "zoom" ""
                  false [Examples.check_item_1]
                  [ConditionItem "low" "" "IM2L0:XTES:CLZ.RBV" (VInt 20)
                     greater_equal;
                   ConditionItem "high" "" "IM2L0:XTES:CLZ.RBV" (VInt 30)
                     less_equal] [])).
  reflexivity.
Defined.

(** The reticle flag compared with the string "OUT" by [>=]. *)
Lemma leaf_comparison_of_mixed_types_found :
  faults Examples.world_found = [] /\
  Examples.world_found.(pvs) !! "RET:FOUND" = Some (VInt 1) /\
  mixed (VInt 1) (VStr "OUT") = true /\
  exists cond_func,
    get_condition_function
      (ConditionItem "ret_find_check" "" "RET:FOUND" (VStr "OUT")
         greater_equal) = Ok cond_func /\
    cond_func Examples.world_found =
      (Raise TypeError, recorded (Ecaget "RET:FOUND") Examples.world_found).
Proof.
  split; [reflexivity|]. split; [reflexivity|]. split; [reflexivity|].
  destruct (leaf_comparison_of_mixed_types "ret_find_check" "" "RET:FOUND"
              (VStr "OUT") (VInt 1) greater_equal Examples.world_found
              eq_refl eq_refl eq_refl)
    as (cond_func & Hf & Hrun & _).
  exists cond_func. split; [exact Hf|exact Hrun].
Defined.

(** Egg 2's first pair with a loop period of -1: the write is made, the
    routine returns FAILURE. *)
Lemma negative_loop_period_fails_after_the_write_egg2 :
  loop_period_sec Examples.do_item_1_negative < 0 /\
  fst (work_func Examples.do_item_1_negative
         (ConditionItem_cond_func "RET:FOUND" (VInt 1) operator_ge)
         Examples.world_not_found) <> Ok RUNNING.
Proof.
  split; [simpl; lia|].
  apply (negative_loop_period_fails_after_the_write
           Examples.do_item_1_negative
           (ConditionItem_cond_func "RET:FOUND" (VInt 1) operator_ge)
           Examples.world_not_found).
  simpl. lia.
Defined.

(** Egg 2's first pair with the reticle found: SUCCESS means the completion
    condition returned true last. *)
Lemma work_func_status_meaning_found :
  let cc := ConditionItem_cond_func "RET:FOUND" (VInt 1) operator_ge in
  let w' := snd (work_func Examples.do_item_1_bound cc Examples.world_found) in
  work_func Examples.do_item_1_bound cc Examples.world_found
  = (Ok SUCCESS, w') /\
  exists w1, cc w1 = (Ok true, w').
Proof.
  intros cc w'.
  assert (work_func Examples.do_item_1_bound cc Examples.world_found
          = (Ok SUCCESS, w')) as Hrun by reflexivity.
  split; [exact Hrun|].
  exact (work_func_status_meaning Examples.do_item_1_bound cc
           Examples.world_found w' SUCCESS Hrun).
Defined.

(** A [do] with its own named check, put under egg 2's first check. *)
Lemma CheckAndDoItem_own_termination_check_named :
  Examples.store_own !! 1%positive = Some Examples.do_with_own_check /\
  item_name (termination_check Examples.do_with_own_check) <> "" /\
  exists self,
    CheckAndDoItem__init__ "ret_find" "" Examples.check_item_1 1%positive
      Examples.store_own = (Ok self, Examples.store_own) /\
    snd (get_tree self Examples.store_own) = Examples.store_own.
Proof.
  assert (item_name (termination_check Examples.do_with_own_check) <> "")
    as Hname by discriminate.
  split; [reflexivity|]. split; [exact Hname|].
  destruct (CheckAndDoItem_own_termination_check Examples.store_own
              "ret_find" "" Examples.check_item_1 1%positive
              Examples.do_with_own_check eq_refl Hname eq_refl)
    as (self & Hinit & Hframe & _).
  exists self. split; [exact Hinit|exact Hframe].
Defined.

(** Three assemblies of the same own-check pair give three equal trees. *)
Lemma get_tree_times_same_node_three :
  let self :=
    mkCheckAndDoItem "ret_find" "" Examples.check_item_1 1%positive in
  exists node h1,
    Examples.store_own !! do self = Some Examples.do_with_own_check /\
    get_tree self Examples.store_own = (Ok node, h1) /\
    fst (get_tree_times 3 self Examples.store_own) = Ok [node; node; node].
Proof.
  intros self.
  destruct (get_tree self Examples.store_own) as [[node|e] h1] eqn:Hnode;
    [|discriminate Hnode].
  exists node, h1. split; [reflexivity|]. split; [reflexivity|].
  exact (get_tree_times_same_node self Examples.store_own h1
           Examples.do_with_own_check node 3 eq_refl Hnode).
Defined.

(** Egg 2's unconfigured [do] shared by two items with different checks. *)
Lemma shared_do_completes_on_each_check_egg2 :
  Examples.store_1 !! 1%positive = Some Examples.do_item_1 /\
  item_name (termination_check Examples.do_item_1) = "" /\
  exists s1 s2 h1,
    CheckAndDoItem__init__ "first" "" Examples.check_item_1 1%positive
      Examples.store_1 = (Ok s1, h1) /\
    CheckAndDoItem__init__ "second" "" Examples.egg1_check 1%positive h1
    = (Ok s2, h1).
Proof.
  split; [reflexivity|]. split; [reflexivity|].
  destruct (shared_do_completes_on_each_check Examples.store_1 1%positive
              Examples.do_item_1 "first" "" "second" ""
              Examples.check_item_1 Examples.egg1_check
              (ConditionItem_cond_func "RET:FOUND" (VInt 1) operator_ge)
              Examples.egg1_cond_func eq_refl eq_refl eq_refl eq_refl)
    as (s1 & s2 & h1 & H1 & H2 & _).
  exists s1, s2, h1. split; [exact H1|exact H2].
Defined.

(** A pair whose check is the marker itself. *)
Lemma get_tree_outcome_marker_check :
  let self :=
    mkCheckAndDoItem "ret_find" "" UseCheckConditionItem_default 1%positive in
  Examples.store_own !! do self = Some Examples.do_with_own_check /\
  fst (get_tree self Examples.store_own) = Raise NotImplementedError.
Proof.
  intros self. split; [reflexivity|].
  pose proof (get_tree_outcome self Examples.store_own
                Examples.do_with_own_check eq_refl) as H.
  destruct (fst (get_tree self Examples.store_own)) as [node|e].
  - destruct H as [H _]. discriminate H.
  - destruct H as [[_ ->]|(H & _)]; [reflexivity|discriminate H].
Defined.

Lemma cleanup_records_cleanup s0 :
  match Worker.stop_func Examples.worker with
  | Some f =>
      f s0 = (Ok tt, Worker.with_events s0 [Worker.Ecallback "cleanup"])
  | None => [Worker.Ecallback "cleanup"] = []
  end.
Proof. reflexivity. Defined.

(** The worker with the cleanup callback, from the initial state. *)
Lemma start_stop_stop_cleanup :
  Worker.do_work Worker.init = false /\
  exists working,
    Worker.start_work Examples.worker Worker.init = (Ok tt, working) /\
    Worker.stop_work Examples.worker working = (Ok tt, Examples.stopped) /\
    Worker.stop_work Examples.worker Examples.stopped =
    (Ok tt,
     Worker.with_events Examples.stopped
       [Worker.Elog Worker.DEBUG (Worker.CallingStopWork "work");
        Worker.Elog Worker.ERROR (Worker.NotWorking "work")]).
Proof.
  split; [reflexivity|].
  exact (start_stop_stop Examples.worker Worker.init
           [Worker.Ecallback "cleanup"] eq_refl eq_refl
           cleanup_records_cleanup).
Defined.

(** Starting the stopped worker again. *)
Lemma restart_leaves_flag_set_stopped :
  Worker.restartable Examples.worker = false /\
  Worker.started Examples.stopped = true /\
  Worker.do_work Examples.stopped = false /\
  fst (Worker.start_work Examples.worker Examples.stopped)
  = Raise AssertionError /\
  Worker.do_work (snd (Worker.start_work Examples.worker Examples.stopped))
  = true /\
  Worker.live (snd (Worker.start_work Examples.worker Examples.stopped)) = O.
Proof.
  split; [reflexivity|]. split; [reflexivity|]. split; [reflexivity|].
  destruct (restart_leaves_flag_set Examples.worker Examples.stopped
              eq_refl eq_refl eq_refl) as [-> _].
  repeat split.
Defined.

Lemma reachable_states_can_be_stopped_run :
  Worker.stop_func_returns_normally Examples.worker /\
  fst (Worker.stop_work Examples.worker
         (Worker.run Examples.worker
            [Worker.Start; Worker.Stop; Worker.Start; Worker.Start]
            Worker.init)) = Ok tt.
Proof.
  split; [exact cleanup_returns_normally|].
  apply (reachable_states_can_be_stopped Examples.worker
           [Worker.Start; Worker.Stop; Worker.Start; Worker.Start]
           cleanup_returns_normally).
Defined.

(** The worker whose cleanup raises: no join in the trace. *)
Lemma raising_callback_skips_the_join_cleanup :
  Worker.do_work Examples.working = true /\
  Worker.started Examples.working = true /\
  Worker.stop_work Examples.worker_failing_cleanup Examples.working =
  (Raise (OtherError "cleanup"),
   Worker.mkState false true 1
     [Worker.Eflag true; Worker.Estart;
      Worker.Elog Worker.DEBUG Worker.StartingWork;
      Worker.Elog Worker.DEBUG (Worker.CallingStopWork "work");
      Worker.Eflag false;
      Worker.Elog Worker.DEBUG (Worker.SendingTerminate "work");
      Worker.Eterminate;
      Worker.Ecallback "cleanup"]).
Proof.
  split; [reflexivity|]. split; [reflexivity|].
  apply (raising_callback_skips_the_join Examples.worker_failing_cleanup
           Examples.working Examples.failing_cleanup (OtherError "cleanup")
           [Worker.Ecallback "cleanup"] eq_refl eq_refl eq_refl eq_refl).
Defined.

(** Against the names of [py_trees]: a [ParallelItem] with policy
    [SuccessOnAll] whose second and third children fail to assemble raises
    the exception of the second. *)
Lemma ParallelItem_SuccessOnAll_is_never_assembled_py_trees :
  ParallelPolicy_getattr "SuccesOnAll" = Raise AttributeError /\
  @ParallelItem_get_tree ParallelPolicy nat ParallelPolicy_getattr
    "both" SuccessOnAll [Ok 1%nat; Raise TypeError; Raise ValueError]
  = Raise TypeError.
Proof.
  split; [reflexivity|].
  apply (proj1 (proj2 (ParallelItem_SuccessOnAll_is_never_assembled
                         ParallelPolicy nat ParallelPolicy_getattr "both"
                         [Ok 1%nat; Raise TypeError; Raise ValueError]
                         eq_refl))
           [1%nat] TypeError [Raise ValueError] SuccessOnAll).
  reflexivity.
Defined.

(** The nested check: its tree's leaf conditions against its condition
    function, in the world where the reticle is found. *)
Lemma condition_tree_agrees_with_condition_function_nested :
  exists node,
    condition_get_tree Examples.nested_check = Ok node /\
    get_condition_function Examples.nested_check
    = Ok Examples.nested_cond_func /\
    Examples.nested_cond_func Examples.world_found
    = SequenceConditionItem_cond_func (conditions_of node)
        Examples.world_found.
Proof.
  destruct (condition_get_tree Examples.nested_check) as [node|e] eqn:Hnode;
    [|discriminate Hnode].
  exists node. split; [reflexivity|]. split; [reflexivity|].
  exact (condition_tree_agrees_with_condition_function Examples.nested_check
           node Examples.nested_cond_func Hnode eq_refl Examples.world_found).
Defined.
